(** * The song-catalog generator (scripts/generate-song-catalog.py)

    A shallow embedding of the catalog pipeline: record loading, the
    genre-stratified sampler, per-decade selection, enrichment, the
    dedup merge with the curated list, and the final write; followed by
    the properties of the pipeline.

    Conventions of the embedding
    - Python [int] is [Z]; [len] is [Z.of_nat (length _)]; [//] on a
      positive divisor is [Z.div].
    - Python [str] is [string], read as its UTF-8 bytes.  Substring tests,
      comparisons and [split] on an ASCII separator agree on bytes and on
      code points.  [lower] is modelled on ASCII and on the Latin-1
      capital letters (the two-byte sequences C3 80 .. C3 9E); [strip],
      [isdigit] and [int] are modelled on ASCII; other code points are
      left as they are.
    - A [dict] iterated in insertion order is an association list with
      unique keys; a [set] used for membership only is a [gset].
    - The module-level [rng = random.Random(42)] is threaded explicitly,
      through an interface that states what [sample] and [shuffle]
      return ([RandomSource]).
    - Binary floating point is not modelled: parsing and rounding of
      floats are operations of an interface ([FloatOps]).
    - The files a run reads and writes, and what it does to them, are a
      record ([World]); an exception that ends the run is an [Outcome]. *)

From Stdlib Require Import ZArith Lia Ascii.
From stdpp Require Import base gmap sets list strings pretty sorting.

Local Open Scope Z_scope.
#[local] Set Warnings "-clear-no-such-hyp".

(** ** Python strings *)

Module PyStr.

Definition code (c : ascii) : N := Stdlib.Strings.Ascii.N_of_ascii c.

Definition in_range (lo hi : N) (c : ascii) : bool :=
  ((lo <=? code c) && (code c <=? hi))%N.

Definition shift_char (c : ascii) : ascii := Stdlib.Strings.Ascii.ascii_of_N (code c + 32).

Definition is_ascii_upper : ascii → bool := in_range 65 90.

(** second byte of a Latin-1 capital (U+00C0 .. U+00DE, without U+00D7) *)
Definition is_latin1_upper_tail (c : ascii) : bool :=
  in_range 128 158 c && negb (code c =? 151)%N.

Definition is_latin1_lead (c : ascii) : bool := (code c =? 195)%N.

(** [str.lower] *)
Fixpoint lower (s : string) : string :=
  match s with
  | EmptyString => EmptyString
  | String c s' =>
      if is_ascii_upper c then String (shift_char c) (lower s')
      else if is_latin1_lead c then
        match s' with
        | String c2 s'' =>
            if is_latin1_upper_tail c2
            then String c (String (shift_char c2) (lower s''))
            else String c (lower s')
        | EmptyString => String c EmptyString
        end
      else String c (lower s')
  end.

(** whitespace of [str.strip]: TAB..CR, FS..US and the space *)
Definition is_space (c : ascii) : bool :=
  in_range 9 13 c || in_range 28 32 c.

Fixpoint lstrip_by (p : ascii → bool) (s : string) : string :=
  match s with
  | EmptyString => EmptyString
  | String c s' => if p c then lstrip_by p s' else s
  end.

Fixpoint rstrip_by (p : ascii → bool) (s : string) : string :=
  match s with
  | EmptyString => EmptyString
  | String c s' =>
      match rstrip_by p s' with
      | EmptyString => if p c then EmptyString else String c EmptyString
      | t => String c t
      end
  end.

Definition strip_by (p : ascii → bool) (s : string) : string :=
  rstrip_by p (lstrip_by p s).

(** [s.strip()] *)
Definition strip : string → string := strip_by is_space.

(** [s.split(sep)] for a one-character separator *)
Fixpoint split_on (sep : ascii) (s : string) : list string :=
  match s with
  | EmptyString => [EmptyString]
  | String c s' =>
      if Stdlib.Strings.Ascii.eqb c sep then EmptyString :: split_on sep s'
      else match split_on sep s' with
           | seg :: segs => String c seg :: segs
           | [] => [String c EmptyString]
           end
  end.

Definition is_digit : ascii → bool := in_range 48 57.

Fixpoint all_chars (p : ascii → bool) (s : string) : bool :=
  match s with
  | EmptyString => true
  | String c s' => p c && all_chars p s'
  end.

(** [s.isdigit()]: at least one character, all of them digits *)
Definition isdigit (s : string) : bool :=
  match s with
  | EmptyString => false
  | _ => all_chars is_digit s
  end.

Definition digit_val (c : ascii) : Z := Z.of_N (code c) - 48.

Fixpoint digits_go (acc : Z) (s : string) : Z :=
  match s with
  | EmptyString => acc
  | String c s' => digits_go (10 * acc + digit_val c) s'
  end.

(** value of a string of decimal digits *)
Definition digits_value : string → Z := digits_go 0.

Fixpoint starts_with (p s : string) : bool :=
  match p, s with
  | EmptyString, _ => true
  | String a p', String b s' => Stdlib.Strings.Ascii.eqb a b && starts_with p' s'
  | String _ _, EmptyString => false
  end.

(** [needle in hay] *)
Fixpoint contains (needle hay : string) : bool :=
  starts_with needle hay ||
  match hay with
  | EmptyString => false
  | String _ hay' => contains needle hay'
  end.

(** digits of [int(s)] after the sign: groups of digits joined by single
    underscores *)
Fixpoint int_body (prev_digit : bool) (acc : Z) (s : string) : option Z :=
  match s with
  | EmptyString => if prev_digit then Some acc else None
  | String c s' =>
      if is_digit c then int_body true (10 * acc + digit_val c) s'
      else if Stdlib.Strings.Ascii.eqb c "_" then
        if prev_digit then int_body false acc s' else None
      else None
  end.

(** [int(s)] in base 10; [None] stands for [ValueError] *)
Definition int (s : string) : option Z :=
  match strip s with
  | EmptyString => None
  | String c s' =>
      if Stdlib.Strings.Ascii.eqb c "-" then Z.opp <$> int_body false 0 s'
      else if Stdlib.Strings.Ascii.eqb c "+" then int_body false 0 s'
      else int_body false 0 (String c s')
  end.

(** [str(n)] *)
Definition str (n : Z) : string := pretty n.

End PyStr.

(** ** Dictionaries in insertion order *)

Section dict.
Context {K V : Type} `{EqDecision K}.

Fixpoint dict_get (k : K) (d : list (K * V)) : option V :=
  match d with
  | [] => None
  | (k', v) :: d' => if decide (k' = k) then Some v else dict_get k d'
  end.

Definition dict_has (k : K) (d : list (K * V)) : bool :=
  bool_decide (k ∈ d.*1).

(** [d[k] = v]: in place when the key exists, appended otherwise *)
Fixpoint dict_set (k : K) (v : V) (d : list (K * V)) : list (K * V) :=
  match d with
  | [] => [(k, v)]
  | (k', v') :: d' =>
      if decide (k' = k) then (k, v) :: d' else (k', v') :: dict_set k v d'
  end.

(** [d[k] = f(d.get(k, dflt))], the update of a [defaultdict] or [Counter] *)
Fixpoint dict_upd (dflt : V) (f : V → V) (k : K) (d : list (K * V))
  : list (K * V) :=
  match d with
  | [] => [(k, f dflt)]
  | (k', v') :: d' =>
      if decide (k' = k) then (k, f v') :: d'
      else (k', v') :: dict_upd dflt f k d'
  end.
End dict.

(** ** Configuration *)

Definition DECADE_TARGETS : list (Z * Z) :=
  [(1960, 150); (1970, 350); (1980, 400); (1990, 500);
   (2000, 600); (2010, 800); (2020, 100)].

Definition dquote : string := String (Stdlib.Strings.Ascii.ascii_of_nat 34) EmptyString.

Definition FILM_KEYWORDS : list string :=
  [ "motion picture"; "soundtrack"; "ost"; "original score"; "original film";
    "from the film"; "from “"; "from " +:+ dquote; "anime"; "animé";
    "opening theme"; "ending theme"; "netflix film"; "pixar"; "marvel";
    "ost"; "score version" ]%string.

Definition FRENCH_ARTIST_PATTERNS : list string :=
  [ "stromae"; "angele"; "aya nakamura"; "indila";
    "christine and the queens"; "orelsan"; "soprano"; "jul"; "nekfeu"; "pnl";
    "maitre gims"; "maître gims"; "gims"; "black m"; "clara luciani";
    "louane"; "vianney"; "camelia jordana"; "camélia jordana"; "mc solaar";
    "iam"; "ntm"; "yelle"; "booba"; "keny arkana"; "lomepal"; "hoshi";
    "bigflo & oli"; "alonzo"; "kaaris"; "sch"; "sexion d'assaut";
    "sexion d'assaut"; "dadju"; "phoenix"; "justice"; "caravan palace";
    "daft punk"; "air"; "david guetta"; "madeon"; "petit biscuit";
    "kavinsky"; "breakbot"; "yuksek"; "rone"; "cassius";
    "charlotte gainsbourg"; "vanessa paradis"; "indochine"; "noir desir";
    "tryo"; "manau"; "louise attaque"; "jacques brel"; "serge gainsbourg";
    "francis cabrel"; "jean-jacques goldman"; "mylene farmer"; "zaz";
    "zazie"; "patrick bruel"; "renaud"; "benabar"; "bénabar"; "raphael";
    "raphäel"; "calogero"; "kyo"; "diam's"; "vitaa"; "jenifer"; "amel bent";
    "chimene badi"; "chimène badi"; "tal"; "bb brunes"; "louise attaque";
    "suprême ntm"; "suprême n.t.m" ]%string.

(** ** Rows of the raw dataset *)

(** One row of the CSV, as [csv.DictReader] yields it: every field a string. *)
Record Row := {
  track_id : string;
  track_name : string;
  track_artist : string;
  track_popularity : string;
  track_album_name : string;
  track_album_release_date : string;
  playlist_name : string;
  playlist_id : string;
  playlist_genre : string;
  playlist_subgenre : string;
  danceability : string;
  energy : string;
  speechiness : string;
  acousticness : string;
  instrumentalness : string;
  liveness : string;
  valence : string;
  tempo : string;
  duration_ms : string;
}.

(** A row once the loader has added [release_year] and [decade] to it. *)
Record Track := {
  raw :> Row;
  release_year : Z;
  decade : Z;
}.

(** ** RecordLoader *)

Definition parse_year (date_str : string) : option Z :=
  match date_str with
  | EmptyString => None
  | _ =>
      match PyStr.split_on "-" (PyStr.strip date_str) with
      | year_part :: _ =>
          if PyStr.isdigit year_part then Some (PyStr.digits_value year_part)
          else None
      | [] => None
      end
  end.

Definition combined_text (row : Row) : string :=
  PyStr.lower (track_name row +:+ " " +:+ track_album_name row).

Definition is_soundtrack (row : Row) : bool :=
  existsb (λ keyword, PyStr.contains keyword (combined_text row)) FILM_KEYWORDS.

(** One iteration of the loop of [load_spotify_records]. *)
Definition load_step (st : list Track * gset string) (row : Row)
  : list Track * gset string :=
  let '(records, seen_ids) := st in
  if bool_decide (track_id row ∈ seen_ids) then st
  else match parse_year (track_album_release_date row) with
       | None => st
       | Some year =>
           if year <? 1960 then st
           else
             let decade := (year / 10) * 10 in
             if (decade <? 1960) || negb (dict_has decade DECADE_TARGETS)
             then st
             else if is_soundtrack row then st
             else (records ++ [{| raw := row; release_year := year;
                                  decade := decade |}],
                   {[track_id row]} ∪ seen_ids)
       end.

(** [rows] is the content of the dataset, in file order. *)
Definition load_spotify_records (rows : list Row) : list Track :=
  (foldl load_step ([], ∅) rows).1.

(** ** Python helpers on lists *)

Abbreviation len l := (Z.of_nat (length l)).

(** [sum(xs)] over integers *)
Definition zsum (xs : list Z) : Z := foldr Z.add 0 xs.

(** [l[:n]] *)
Definition slice_to {A} (n : Z) (l : list A) : list A :=
  if 0 <=? n then take (Z.to_nat n) l else take (Z.to_nat (len l + n)) l.

(** [sorted] is stable: elements with equal keys keep their order, also
    with [reverse=True].  [before x y] says that [x] may stay in front of
    [y]. *)
Section stable_sort.
Context {A : Type} (before : A → A → bool).

Fixpoint insert_sorted (x : A) (l : list A) : list A :=
  match l with
  | [] => [x]
  | y :: l' => if before x y then x :: l else y :: insert_sorted x l'
  end.

Definition stable_sort (l : list A) : list A := foldr insert_sorted [] l.
End stable_sort.

(** order of Python tuples of two integers *)
Definition pair_leb (p q : Z * Z) : bool :=
  (p.1 <? q.1) || ((p.1 =? q.1) && (p.2 <=? q.2)).

(** [round(a / b)] for [b > 0]: the nearest integer, ties to the even one.
    The quotient is the exact one.  The source rounds the float quotient,
    which gives the same integer as long as [(target + 1) * len(bucket)]
    is below 2^52; the properties of the plan proved below hold for any
    rounding. *)
Definition py_round_div (a b : Z) : Z :=
  let q := a / b in
  let r := a mod b in
  if 2 * r <? b then q
  else if b <? 2 * r then q + 1
  else if Z.even q then q else q + 1.

(** ** The random source *)

(** [random.Random]: [rng_sample g l k] is [rng.sample(l, k)], which the
    source only calls with [k <= len(l)]; [rng_shuffle] is [rng.shuffle].
    Both return the next state of the generator. *)
Class RandomSource := {
  rng_state : Type;
  rng_seed : Z → rng_state;
  rng_sample : ∀ {A : Type}, rng_state → list A → nat → list A * rng_state;
  rng_shuffle : ∀ {A : Type}, rng_state → list A → list A * rng_state;
  rng_sample_length : ∀ (A : Type) g (l : list A) k,
    (k ≤ length l)%nat → length (rng_sample g l k).1 = k;
  rng_sample_submseteq : ∀ (A : Type) g (l : list A) k,
    (k ≤ length l)%nat → (rng_sample g l k).1 ⊆+ l;
  rng_shuffle_perm : ∀ (A : Type) g (l : list A), (rng_shuffle g l).1 ≡ₚ l;
}.

(** ** StratifiedSampler *)

(** [allocations[genre]] for a genre of the bucket *)
Definition alloc_at (allocations : list (string * Z)) (genre : string) : Z :=
  default 0 (dict_get genre allocations).

Definition group_by_genre (bucket : list Track) : list (string * list Track) :=
  foldl (λ groups (row : Track),
           dict_upd [] (λ items, items ++ [row]) (playlist_genre row) groups)
        [] bucket.

Definition initial_allocations (target : Z)
    (groups : list (string * list Track)) : list (string * Z) :=
  let total := zsum ((λ kv, len kv.2) <$> groups) in
  (λ kv, (kv.1, Z.min (Z.max 1 (py_round_div (target * len kv.2) total))
                      (len kv.2))) <$> groups.

Definition headroom_key (allocations : list (string * Z))
    (kv : string * list Track) : Z * Z :=
  (len kv.2 - alloc_at allocations kv.1, len kv.2).

(** body of the loop of the shortfall branch; after [break] the remaining
    iterations do nothing *)
Definition shortfall_step (st : list (string * Z) * Z)
    (kv : string * list Track) : list (string * Z) * Z :=
  let '(allocations, diff) := st in
  if diff <=? 0 then st
  else
    let available := len kv.2 - alloc_at allocations kv.1 in
    if available <=? 0 then st
    else
      let add := Z.min diff available in
      (dict_set kv.1 (alloc_at allocations kv.1 + add) allocations, diff - add).

(** the inner [while] of the overflow branch; [a] is [allocations[genre]] *)
Fixpoint trim_loop (fuel : nat) (a diff : Z) : Z * Z :=
  match fuel with
  | O => (a, diff)
  | S fuel' =>
      if (1 <? a) && (0 <? diff) then
        if diff - 1 =? 0 then (a - 1, diff - 1)
        else trim_loop fuel' (a - 1) (diff - 1)
      else (a, diff)
  end.

Definition overflow_step (st : list (string * Z) * Z) (kv : string * Z)
  : list (string * Z) * Z :=
  let '(allocations, diff) := st in
  if diff =? 0 then st
  else
    let a := alloc_at allocations kv.1 in
    let '(a', diff') := trim_loop (Z.to_nat a) a diff in
    (dict_set kv.1 a' allocations, diff').

(** [sorted(groups.items(), key=(headroom, size), reverse=True)] *)
Definition shortfall_order (allocations : list (string * Z))
    (groups : list (string * list Track)) : list (string * list Track) :=
  stable_sort (λ x y, pair_leb (headroom_key allocations y)
                               (headroom_key allocations x)) groups.

(** [sorted(allocations.items(), key=value, reverse=True)] *)
Definition overflow_order (allocations : list (string * Z))
  : list (string * Z) :=
  stable_sort (λ x y : string * Z, y.2 <=? x.2) allocations.

(** the reconciliation of the plan with the target *)
Definition reconcile (target : Z) (groups : list (string * list Track))
    (allocations : list (string * Z)) : list (string * Z) :=
  let current := zsum allocations.*2 in
  if current <? target then
    (foldl shortfall_step (allocations, target - current)
           (shortfall_order allocations groups)).1
  else if target <? current then
    (foldl overflow_step (allocations, current - target)
           (overflow_order allocations)).1
  else allocations.




(** the plan [stratified_sample] draws from, for [len(bucket) > target] *)
Definition allocation_plan (bucket : list Track) (target : Z)
  : list (string * Z) :=
  let groups := group_by_genre bucket in
  reconcile target groups (initial_allocations target groups).

Section sampler.
Context `{RandomSource}.

Definition draw_step (allocations : list (string * Z))
    (st : list Track * rng_state) (kv : string * list Track)
  : list Track * rng_state :=
  let count := default 0 (dict_get kv.1 allocations) in
  if count <=? 0 then st
  else if len kv.2 <=? count then (st.1 ++ kv.2, st.2)
  else
    let picked := rng_sample st.2 kv.2 (Z.to_nat count) in
    (st.1 ++ picked.1, picked.2).

Definition stratified_sample (g : rng_state) (bucket : list Track)
    (target : Z) : list Track * rng_state :=
  if len bucket <=? target then (bucket, g)
  else
    foldl (draw_step (allocation_plan bucket target)) ([], g)
          (group_by_genre bucket).

(** ** DecadeSelector *)

Definition ids_of (rows : list Track) : gset string :=
  list_to_set ((λ r : Track, track_id r) <$> rows).

(** the backfill of a sample shorter than the target *)
Definition backfill_picks (g : rng_state) (bucket picks : list Track)
    (target : Z) : list Track * rng_state :=
  if len picks <? target then
    let remaining := filter (λ r : Track, track_id r ∉ ids_of picks) bucket in
    let needed := target - len picks in
    if bool_decide (remaining ≠ []) && (0 <? needed) then
      let extra :=
        rng_sample g remaining (Z.to_nat (Z.min needed (len remaining))) in
      (picks ++ extra.1, extra.2)
    else (picks, g)
  else (picks, g).

Definition decade_bucket (records : list Track) (used_ids : gset string)
    (d : Z) : list Track :=
  filter (λ r : Track, decade r = d ∧ track_id r ∉ used_ids) records.

(** one iteration of the loop over [DECADE_TARGETS] *)
Definition select_step (records : list Track)
    (st : list Track * gset string * rng_state) (dt : Z * Z)
  : list Track * gset string * rng_state :=
  let '(selected, used_ids, g) := st in
  let bucket := decade_bucket records used_ids dt.1 in
  match bucket with
  | [] => st
  | _ =>
      let sampled := stratified_sample g bucket dt.2 in
      let picks := backfill_picks sampled.2 bucket sampled.1 dt.2 in
      (selected ++ slice_to dt.2 picks.1, ids_of picks.1 ∪ used_ids, picks.2)
  end.

Definition select_loop (records : list Track) (g : rng_state)
    (decades : list (Z * Z)) : list Track * gset string * rng_state :=
  foldl (select_step records) ([], ∅, g) decades.

Definition select_spotify_subset (g : rng_state) (records : list Track)
  : list Track * rng_state :=
  let st := select_loop records g DECADE_TARGETS in (st.1.1, st.2).
End sampler.

(** ** EntryEnricher *)

(** [float(s)], division and [round(x, ndigits)] on floats.  [None] stands
    for [ValueError]. *)
Class FloatOps := {
  pyfloat : Type;
  float_of_str : string → option pyfloat;
  float_div : pyfloat → Z → pyfloat;
  float_round : pyfloat → Z → pyfloat;
}.

Definition detect_language (row : Row) : string :=
  let artist := PyStr.lower (track_artist row) in
  if existsb (λ pattern, PyStr.contains pattern artist) FRENCH_ARTIST_PATTERNS
  then "fr"
  else if bool_decide (playlist_genre row = "latin") then "es"
  else "en".

Definition origin_markets (language : string) : list string :=
  if bool_decide (language = "fr") then ["FR"; "BE"; "CA"]
  else if bool_decide (language = "es") then ["ES"; "MX"; "AR"]
  else ["GLOBAL"].

(** [sorted({...})] on strings *)
Definition sorted_set (xs : list string) : list string :=
  stable_sort Stdlib.Strings.String.leb (remove_dups xs).

Section entries.
Context `{FloatOps}.

Record AudioFeatures := {
  af_danceability : pyfloat;
  af_energy : pyfloat;
  af_speechiness : pyfloat;
  af_acousticness : pyfloat;
  af_instrumentalness : pyfloat;
  af_liveness : pyfloat;
  af_valence : pyfloat;
  af_tempo : pyfloat;
}.

(** A catalog entry; [None] is JSON [null]. *)
Record Entry := {
  entry_id : string;
  title : string;
  artist : string;
  album : string;
  releaseYear : Z;
  releaseDate : string;
  primaryGenre : string;
  subGenre : string;
  language : string;
  originMarkets : list string;
  durationSeconds : option pyfloat;
  bpm : option pyfloat;
  audioFeatures : option AudioFeatures;
  popularity : option Z;
  niche : bool;
  source : string;
  availableProviders : list string;
  searchHints : list (string * string);
  clip : list (string * Z);
  languageConfidence : string;
  tags : list string;
  datasetMeta : option (list (string * string));
}.

Definition SPOTIFY_SOURCE : string := "spotify-tidytuesday-2020-01-21".
Definition MANUAL_SOURCE : string := "manual-french-classics".

Definition spotify_row_to_entry (row : Track) : option Entry :=
  let language := detect_language row in
  duration ← float_of_str (duration_ms row);
  let duration_seconds := float_round (float_div duration 1000) 2 in
  tempo_f ← float_of_str (tempo row);
  let bpm := float_round tempo_f 3 in
  popularity ← (if bool_decide (track_popularity row = EmptyString)
                then Some None
                else Some <$> PyStr.int (track_popularity row));
  let niche := match popularity with
               | Some p => p <? 45
               | None => false
               end in
  f_danceability ← float_of_str (danceability row);
  f_energy ← float_of_str (energy row);
  f_speechiness ← float_of_str (speechiness row);
  f_acousticness ← float_of_str (acousticness row);
  f_instrumentalness ← float_of_str (instrumentalness row);
  f_liveness ← float_of_str (liveness row);
  f_valence ← float_of_str (valence row);
  Some {|
    entry_id := "spotify:" +:+ track_id row;
    title := track_name row;
    artist := track_artist row;
    album := track_album_name row;
    releaseYear := release_year row;
    releaseDate := track_album_release_date row;
    primaryGenre := playlist_genre row;
    subGenre := playlist_subgenre row;
    language := language;
    originMarkets := origin_markets language;
    durationSeconds := Some duration_seconds;
    bpm := Some bpm;
    audioFeatures := Some {|
      af_danceability := f_danceability;
      af_energy := f_energy;
      af_speechiness := f_speechiness;
      af_acousticness := f_acousticness;
      af_instrumentalness := f_instrumentalness;
      af_liveness := f_liveness;
      af_valence := f_valence;
      af_tempo := bpm |};
    popularity := popularity;
    niche := niche;
    source := SPOTIFY_SOURCE;
    availableProviders := ["spotify"; "youtube"; "deezer"];
    searchHints :=
      [("youtube", track_artist row +:+ " " +:+ track_name row);
       ("spotify", "spotify:track:" +:+ track_id row);
       ("deezer", track_artist row +:+ " " +:+ track_name row)];
    clip := [("startSeconds", 30); ("durationSeconds", 45)];
    languageConfidence := "heuristic";
    tags := sorted_set [playlist_genre row; playlist_subgenre row; language];
    datasetMeta := Some [("playlistId", playlist_id row);
                         ("playlistName", playlist_name row)];
  |}.

(** ** The curated list *)

(** One row of the tab-separated curated file. *)
Record ManualRow := {
  m_year : string;
  m_artist : string;
  m_title : string;
  m_album : string;
  m_primary_genre : string;
  m_subgenre : string;
  m_language : string;
  m_youtube_hint : string;
}.

Definition is_slug_char (c : ascii) : bool :=
  PyStr.in_range 97 122 c || PyStr.is_digit c.

(** [re.sub(r'[^a-z0-9]+', '-', s)] *)
Fixpoint sub_runs (in_run : bool) (s : string) : string :=
  match s with
  | EmptyString => EmptyString
  | String c s' =>
      if is_slug_char c then String c (sub_runs false s')
      else if in_run then sub_runs true s'
      else String "-" (sub_runs true s')
  end.

Definition slugify (s : string) : string :=
  PyStr.strip_by (Stdlib.Strings.Ascii.eqb "-") (sub_runs false (PyStr.lower s)).

Definition manual_row_to_entry (row : ManualRow) : option Entry :=
  year ← PyStr.int (m_year row);
  let slug :=
    slugify (m_artist row +:+ " " +:+ m_title row +:+ " " +:+ PyStr.str year) in
  Some {|
    entry_id := "manual:" +:+ slug;
    title := m_title row;
    artist := m_artist row;
    album := m_album row;
    releaseYear := year;
    releaseDate := PyStr.str year +:+ "-01-01";
    primaryGenre := m_primary_genre row;
    subGenre := m_subgenre row;
    language := m_language row;
    originMarkets := ["FR"; "BE"; "CA"];
    durationSeconds := None;
    bpm := None;
    audioFeatures := None;
    popularity := None;
    niche := false;
    source := MANUAL_SOURCE;
    availableProviders := ["youtube"; "deezer"; "manual"];
    searchHints := [("youtube", m_youtube_hint row)];
    clip := [("startSeconds", 30); ("durationSeconds", 45)];
    languageConfidence := "curated";
    tags := sorted_set [m_primary_genre row; m_subgenre row; "francophone"];
    datasetMeta := None;
  |}.

(** the rows of the curated file, in file order *)
Definition load_manual_french_songs (rows : list ManualRow)
  : option (list Entry) :=
  mapM manual_row_to_entry rows.

End entries.

(** ** CatalogMerger and CatalogWriter *)

Inductive Path := RAW_DATA | MANUAL_FR_FILE | OUTPUT_PATH.

(** the paths relative to [ROOT] *)
Definition rel_path (p : Path) : string :=
  match p with
  | RAW_DATA => "apps/server/data/raw/spotify_songs_2020-01-21.csv"
  | MANUAL_FR_FILE => "apps/server/data/manual-french-songs.tsv"
  | OUTPUT_PATH => "apps/server/data/song-catalog.json"
  end.

Definition abs_path (root : string) (p : Path) : string :=
  root +:+ "/" +:+ rel_path p.

(** What a run does to its environment, in order. *)
Inductive Event :=
  | Exists (p : Path) (found : bool)
  | OpenedForRead (p : Path)
  | OpenFailed (p : Path)
  | Written (p : Path)
  | Printed (line : string).

Inductive Error :=
  | SystemExit (msg : string)
  | FileNotFoundError (p : Path)
  | ValueError.

Inductive Outcome :=
  | Finished
  | Raised (e : Error).

(** the exit status of the process: an uncaught exception and
    [SystemExit] with a message both give 1 *)
Definition exit_status (o : Outcome) : Z :=
  match o with
  | Finished => 0
  | Raised _ => 1
  end.

(** [Counter(keys)] *)
Definition Counter {K} `{EqDecision K} (keys : list K) : list (K * Z) :=
  foldl (λ counts k, dict_upd 0 (Z.add 1) k counts) [] keys.

Definition GLOBAL_TARGET : Z := 3000.

Section pipeline.
Context `{RandomSource} `{FloatOps}.

Record Metadata := {
  generatedAt : string;
  sourceFiles : list (string * string);
  recordCount : Z;
  notes : list string;
  byDecade : list (Z * Z);
  byPrimaryGenre : list (string * Z);
  byLanguage : list (string * Z);
}.

(** The document [json.dump] writes; the catalog file is represented by
    the payload it serialises. *)
Record Payload := {
  metadata : Metadata;
  songs : list Entry;
}.

(** The files the run reads and writes ([None]: the file does not exist)
    and the trace of what it did. *)
Record World := {
  raw_dataset : option (list Row);
  manual_songs : option (list ManualRow);
  catalog : option Payload;
  trace : list Event;
}.

Definition log (evs : list Event) (w : World) : World :=
  {| raw_dataset := raw_dataset w; manual_songs := manual_songs w;
     catalog := catalog w; trace := trace w ++ evs |}.

Definition write_catalog (p : Payload) (w : World) : World :=
  {| raw_dataset := raw_dataset w; manual_songs := manual_songs w;
     catalog := Some p; trace := trace w ++ [Written OUTPUT_PATH] |}.

Definition normalize (s : string) : string := PyStr.strip (PyStr.lower s).

Definition dedup_key (entry : Entry) : string * string :=
  (normalize (title entry), normalize (artist entry)).

Definition row_key (row : Row) : string * string :=
  (normalize (track_name row), normalize (track_artist row)).

(** one iteration of the loop over the curated entries *)
Definition merge_step (st : list Entry * Z * gset (string * string))
    (entry : Entry) : list Entry * Z * gset (string * string) :=
  let '(manual_entries, skipped_manual, key_lookup) := st in
  if bool_decide (dedup_key entry ∈ key_lookup)
  then (manual_entries, skipped_manual + 1, key_lookup)
  else (manual_entries ++ [entry], skipped_manual,
        {[dedup_key entry]} ∪ key_lookup).

(** one iteration of the backfill loop; [None] once an entry failed *)
Definition backfill_step (st : option (list Entry * gset (string * string)))
    (row : Track) : option (list Entry * gset (string * string)) :=
  cur ← st;
  entry ← spotify_row_to_entry row;
  Some (cur.1 ++ [entry], {[dedup_key entry]} ∪ cur.2).

(** the rows the backfill may draw from *)
Definition backfill_pool (spotify_records : list Track)
    (key_lookup : gset (string * string)) : list Track :=
  filter (λ row : Track, row_key row ∉ key_lookup) spotify_records.

Definition backfill (g : rng_state) (spotify_records : list Track)
    (key_lookup : gset (string * string)) (combined : list Entry)
  : option (list Entry) :=
  if len combined <? GLOBAL_TARGET then
    let needed := GLOBAL_TARGET - len combined in
    let remaining := backfill_pool spotify_records key_lookup in
    let shuffled := (rng_shuffle g remaining).1 in
    fst <$> foldl backfill_step (Some (combined, key_lookup))
                  (slice_to needed shuffled)
  else Some combined.

(** the merge of [main]: the primary entries, the curated entries that
    bring a new key, and the backfill; with the number of curated
    entries dropped *)
Definition merge_catalog (g : rng_state) (spotify_records : list Track)
    (spotify_entries curated : list Entry) : option (list Entry * Z) :=
  let key_lookup : gset (string * string) :=
    list_to_set (dedup_key <$> spotify_entries) in
  let merged := foldl merge_step ([], 0, key_lookup) curated in
  combined ← backfill g spotify_records merged.2
                      (spotify_entries ++ merged.1.1);
  Some (combined, merged.1.2).

Definition sort_key_leb (x y : Entry) : bool :=
  (releaseYear x <? releaseYear y) ||
  ((releaseYear x =? releaseYear y) &&
   Stdlib.Strings.String.leb (title x) (title y)).

Definition build_metadata (now : string) (skipped_manual : Z)
    (combined : list Entry) : Metadata :=
  {| generatedAt := now +:+ "Z";
     sourceFiles := [("spotify", rel_path RAW_DATA);
                     ("manualFrench", rel_path MANUAL_FR_FILE)];
     recordCount := len combined;
     notes :=
       ["Base dataset built from the Spotify + TidyTuesday 2020-01-21 playlists (pop, rock, latin, rap, r&b, edm).";
        "Filtered out soundtrack/anime keywords and releases before 1960.";
        "Added 100 manually curated French classics spanning 1960-2021.";
        "Manual duplicates skipped: " +:+ PyStr.str skipped_manual];
     byDecade := Counter ((λ e, releaseYear e / 10 * 10) <$> combined);
     byPrimaryGenre := Counter (primaryGenre <$> combined);
     byLanguage := Counter (language <$> combined) |}.

(** [main()].  [root] is the absolute path of the repository, [now] the
    reading of the clock, [datetime.utcnow().isoformat(timespec='seconds')],
    taken when the metadata is built. *)
Definition main (root now : string) (w : World) : World * Outcome :=
  match raw_dataset w with
  | None =>
      (log [Exists RAW_DATA false] w,
       Raised (SystemExit ("Missing dataset: " +:+ abs_path root RAW_DATA)))
  | Some rows =>
      let w := log [Exists RAW_DATA true; OpenedForRead RAW_DATA] w in
      let spotify_records := load_spotify_records rows in
      let selection := select_spotify_subset (rng_seed 42) spotify_records in
      match mapM spotify_row_to_entry selection.1 with
      | None => (w, Raised ValueError)
      | Some spotify_entries =>
          match manual_songs w with
          | None =>
              (log [OpenFailed MANUAL_FR_FILE] w,
               Raised (FileNotFoundError MANUAL_FR_FILE))
          | Some manual_rows =>
              let w := log [OpenedForRead MANUAL_FR_FILE] w in
              match load_manual_french_songs manual_rows with
              | None => (w, Raised ValueError)
              | Some curated =>
                  match merge_catalog selection.2 spotify_records
                                      spotify_entries curated with
                  | None => (w, Raised ValueError)
                  | Some (combined, skipped_manual) =>
                      let combined := stable_sort sort_key_leb combined in
                      let payload :=
                        {| metadata :=
                             build_metadata now skipped_manual combined;
                           songs := combined |} in
                      let w := write_catalog payload w in
                      (log [Printed ("Wrote " +:+ PyStr.str (len combined)
                                     +:+ " songs to "
                                     +:+ abs_path root OUTPUT_PATH)] w,
                       Finished)
                  end
              end
          end
      end
  end.

(** the payload with its timestamp blanked *)
Definition without_timestamp (p : Payload) : Payload :=
  {| metadata :=
       {| generatedAt := EmptyString;
          sourceFiles := sourceFiles (metadata p);
          recordCount := recordCount (metadata p);
          notes := notes (metadata p);
          byDecade := byDecade (metadata p);
          byPrimaryGenre := byPrimaryGenre (metadata p);
          byLanguage := byLanguage (metadata p) |};
     songs := songs p |}.

End pipeline.

(** ** Instances of the interfaces, for running the pipeline *)

(** A random source that rotates the population by its state and takes a
    prefix. *)
Definition rot_sample {A} (g : nat) (l : list A) (k : nat) : list A * nat :=
  (take k (rotate g l), S g).

Definition rot_shuffle {A} (g : nat) (l : list A) : list A * nat :=
  (rotate g l, S g).

#[export] Program Instance RotatingRandom : RandomSource := {|
  rng_state := nat;
  rng_seed := Z.to_nat;
  rng_sample := @rot_sample;
  rng_shuffle := @rot_shuffle;
|}.
Next Obligation.
  intros A g l k Hk. simpl. rewrite length_take, length_rotate. lia.
Qed.
Next Obligation.
  intros A g l k Hk. simpl.
  etrans; [apply sublist_submseteq, sublist_take|].
  apply Permutation_submseteq. unfold rotate.
  rewrite Permutation_app_comm. by rewrite take_drop.
Qed.
Next Obligation.
  intros A g l. simpl. unfold rotate.
  rewrite Permutation_app_comm. by rewrite take_drop.
Qed.

(** Floats restricted to integer literals, enough to run the pipeline on
    sample rows. *)
#[export] Instance IntegerFloats : FloatOps := {|
  pyfloat := Z;
  float_of_str := PyStr.int;
  float_div := Z.div;
  float_round := λ x _, x;
|}.

(** ** Predicates of the statements *)

(** what the loader has checked of a row it keeps *)
Definition loaded_from (rows : list Row) (r : Track) : Prop :=
  raw r ∈ rows ∧
  parse_year (track_album_release_date r) = Some (release_year r) ∧
  1960 ≤ release_year r ∧
  decade r = release_year r / 10 * 10 ∧
  decade r ∈ DECADE_TARGETS.*1 ∧
  is_soundtrack r = false.

Definition floats_parse `{FloatOps} (row : Row) : Prop :=
  is_Some (float_of_str (duration_ms row)) ∧
  is_Some (float_of_str (tempo row)) ∧
  is_Some (float_of_str (danceability row)) ∧
  is_Some (float_of_str (energy row)) ∧
  is_Some (float_of_str (speechiness row)) ∧
  is_Some (float_of_str (acousticness row)) ∧
  is_Some (float_of_str (instrumentalness row)) ∧
  is_Some (float_of_str (liveness row)) ∧
  is_Some (float_of_str (valence row)).

Definition nonempty_groups (groups : list (string * list Track)) : Prop :=
  ∀ kv, kv ∈ groups → kv.2 ≠ [].

(** the number of rows in all groups *)
Definition total_size (groups : list (string * list Track)) : Z :=
  zsum ((λ kv, len kv.2) <$> groups).

(** a plan over the genres of [groups], each quota between 1 and the
    size of its group *)
Definition plan_ok (groups : list (string * list Track))
    (allocs : list (string * Z)) : Prop :=
  allocs.*1 = groups.*1 ∧
  ∀ kv, kv ∈ groups → 1 ≤ alloc_at allocs kv.1 ≤ len kv.2.

Definition headroom (allocs : list (string * Z)) (kv : string * list Track)
  : Z := len kv.2 - alloc_at allocs kv.1.

(** the selection so far is marked used, and rows of different decades
    have different identifiers *)
Definition partitioned `{RandomSource}
    (st : list Track * gset string * rng_state) : Prop :=
  (∀ r : Track, r ∈ st.1.1 → track_id r ∈ st.1.2) ∧
  (∀ r1 r2 : Track, r1 ∈ st.1.1 → r2 ∈ st.1.1 →
     decade r1 ≠ decade r2 → track_id r1 ≠ track_id r2).


(** ** Sample data *)

Definition sample_row (id name album date genre : string) : Row :=
  {| track_id := id; track_name := name; track_artist := "Artist";
     track_popularity := EmptyString; track_album_name := album;
     track_album_release_date := date; playlist_name := "Hits";
     playlist_id := "p1"; playlist_genre := genre;
     playlist_subgenre := "sub"; danceability := "1"; energy := "1";
     speechiness := "1"; acousticness := "1"; instrumentalness := "1";
     liveness := "1"; valence := "1"; tempo := "120";
     duration_ms := "200000" |}.

Definition row_1957 : Row := sample_row "t57" "Old Tune" "LP" "1957-03-01" "rock".

Definition row_1999 : Row := sample_row "t99" "Hello" "LP" "1999-01-01" "pop".

Definition row_ghost : Row := sample_row "tgh" "Ghost Town" "LP" "1981-06-12" "rock".

Definition track_1999 : Track :=
  {| raw := row_1999; release_year := 1999; decade := 1990 |}.

Definition genre_track (genre id : string) : Track :=
  {| raw := sample_row id "Song" "LP" "2020-05-05" genre;
     release_year := 2020; decade := 2020 |}.

(** 600, 300 and 100 rows of three genres *)
Definition three_genres : list Track :=
  replicate 600 (genre_track "pop" "p") ++
  replicate 300 (genre_track "rock" "r") ++
  replicate 100 (genre_track "rap" "h").

(** 101 rows, each of a genre of its own *)
Definition many_genres : list Track :=
  (λ i : nat, genre_track (pretty i) (pretty i)) <$> seq 0 101.

(** four genres of 25 rows each *)
Definition four_genres : list Track :=
  replicate 25 (genre_track "pop" "p") ++
  replicate 25 (genre_track "rock" "r") ++
  replicate 25 (genre_track "rap" "h") ++
  replicate 25 (genre_track "edm" "e").

(** rows of two decades, with one identifier carried by a row of the
    1960s and by a row of the 1970s *)
Definition decade_track (id genre : string) (year : Z) : Track :=
  {| raw := sample_row id "Song" "LP" (PyStr.str year) genre;
     release_year := year; decade := year / 10 * 10 |}.

Definition two_decades : list Track :=
  [decade_track "a" "pop" 1964; decade_track "b" "rock" 1968;
   decade_track "a" "pop" 1971; decade_track "c" "pop" 1975].

Definition curated_row (year artist_ title_ : string) : ManualRow :=
  {| m_year := year; m_artist := artist_; m_title := title_;
     m_album := "Album"; m_primary_genre := "chanson"; m_subgenre := "pop";
     m_language := "fr"; m_youtube_hint := "hint" |}.

Definition artist_row (id name artist_ date : string) : Row :=
  {| track_id := id; track_name := name; track_artist := artist_;
     track_popularity := "50"; track_album_name := "LP";
     track_album_release_date := date; playlist_name := "Hits";
     playlist_id := "p1"; playlist_genre := "pop";
     playlist_subgenre := "sub"; danceability := "1"; energy := "1";
     speechiness := "1"; acousticness := "1"; instrumentalness := "1";
     liveness := "1"; valence := "1"; tempo := "120";
     duration_ms := "200000" |}.

(** both files present; two rows of the dataset are one song under two
    identifiers, and two curated rows collide with a key already there *)
Definition both_files : World :=
  {| raw_dataset :=
       Some [artist_row "1" "Hello" "Adele" "2015-10-23";
             artist_row "2" "hello " "ADELE" "2015-11-20";
             artist_row "3" "Bye" "Someone" "1999"];
     manual_songs :=
       Some [curated_row "1964" "Jacques Brel" "Amsterdam";
             curated_row "2015" "adele" "HELLO";
             curated_row "1964" "Jacques Brel" "amsterdam "];
     catalog := None;
     trace := [] |}.

(** the curated file is absent *)
Definition no_curated_file : World :=
  {| raw_dataset := raw_dataset both_files; manual_songs := None;
     catalog := None; trace := [] |}.

(** the curated file is absent and a row of the dataset has a duration
    that is not a number *)
Definition no_curated_file_bad_row : World :=
  {| raw_dataset :=
       Some [{| track_id := "9"; track_name := "Song"; track_artist := "A";
                track_popularity := "50"; track_album_name := "LP";
                track_album_release_date := "2001-01-01";
                playlist_name := "Hits"; playlist_id := "p1";
                playlist_genre := "pop"; playlist_subgenre := "sub";
                danceability := "1"; energy := "1"; speechiness := "1";
                acousticness := "1"; instrumentalness := "1";
                liveness := "1"; valence := "1"; tempo := "120";
                duration_ms := "n/a" |}];
     manual_songs := None; catalog := None; trace := [] |}.

Definition noon : string := "2026-01-01T12:00:00".

Definition after_noon : string := "2026-01-01T12:00:01".

(** ** Further predicates of the statements *)

(** a row the loader keeps, unless its identifier has been seen *)
Definition accepted (row : Row) (year : Z) : Prop :=
  parse_year (track_album_release_date row) = Some year ∧
  1960 ≤ year ∧
  year / 10 * 10 ∈ DECADE_TARGETS.*1 ∧
  is_soundtrack row = false.

(** the record the loader makes of a row *)
Definition track_of (row : Row) (year : Z) : Track :=
  {| raw := row; release_year := year; decade := year / 10 * 10 |}.

Definition track_ids (rows : list Track) : list string :=
  (λ r : Track, track_id r) <$> rows.



(** the records of a decade *)
Definition decade_rows (records : list Track) (d : Z) : list Track :=
  filter (λ r : Track, decade r = d) records.

(** a small dataset: rows of the 1960s, 1990s and 2010s, a row from
    before 1960, a soundtrack row and a row with a repeated identifier *)
Definition small_dataset : list Row :=
  [ sample_row "s1" "Yesterday" "Help" "1965-08-06" "rock";
    row_1957;
    sample_row "s2" "Hello" "25" "2015-10-23" "pop";
    row_ghost;
    row_1999;
    sample_row "s2" "Hello again" "25" "2015-11-20" "pop";
    sample_row "s3" "Bailando" "Sex and Love" "2014" "latin" ].

(** a row of an artist whose name contains the letters of a pattern *)
Definition metallica_row : Row :=
  {| track_id := "m1"; track_name := "One"; track_artist := "Metallica";
     track_popularity := "70"; track_album_name := "Justice";
     track_album_release_date := "1988-09-07"; playlist_name := "Rock";
     playlist_id := "p2"; playlist_genre := "rock";
     playlist_subgenre := "hard rock"; danceability := "1"; energy := "1";
     speechiness := "1"; acousticness := "1"; instrumentalness := "1";
     liveness := "1"; valence := "1"; tempo := "120";
     duration_ms := "400000" |}.

Definition metallica_track : Track :=
  {| raw := metallica_row; release_year := 1988; decade := 1980 |}.

(** strictly ascending in the order of Python strings *)
Definition strictly_ascending (xs : list string) : Prop :=
  StronglySorted (λ a b, Stdlib.Strings.String.leb a b = true ∧ a ≠ b) xs.

(** a character of a slug: a lower-case letter, a digit or the hyphen *)
Definition slug_or_hyphen (c : ascii) : bool :=
  is_slug_char c || Stdlib.Strings.Ascii.eqb c "-".

Definition is_hyphen (c : ascii) : bool := Stdlib.Strings.Ascii.eqb "-" c.


(** * Properties of the strings *)

Lemma append_cons (c : ascii) (a b : string) :
  String c a +:+ b = String c (a +:+ b).
Proof. reflexivity. Qed.

Lemma append_nil (b : string) : EmptyString +:+ b = b.
Proof. reflexivity. Qed.








Lemma contains_keyword_soundtrack (row : Row) (keyword : string) :
  keyword ∈ FILM_KEYWORDS →
  PyStr.contains keyword (combined_text row) = true →
  is_soundtrack row = true.
Proof.
  intros Hin Hc. unfold is_soundtrack. apply existsb_exists.
  exists keyword. split; [by apply list_elem_of_In|done].
Qed.

(** * Properties of the loader *)

Lemma load_step_kept (rows : list Row) st row :
  row ∈ rows →
  Forall (loaded_from rows) st.1 →
  Forall (loaded_from rows) (load_step st row).1.
Proof.
  intros Hrow Hst. destruct st as [records seen]. unfold load_step.
  case_bool_decide; [done|].
  destruct (parse_year (track_album_release_date row)) as [year|] eqn:Hy;
    [|done].
  destruct (year <? 1960) eqn:Hlt; [done|].
  destruct (_ || _) eqn:Hdec; [done|].
  destruct (is_soundtrack row) eqn:Hs; [done|].
  simpl in *. apply Forall_app. split; [done|]. apply Forall_singleton.
  apply orb_false_elim in Hdec as [_ Hhas].
  apply negb_false_iff in Hhas. unfold dict_has in Hhas.
  apply bool_decide_eq_true in Hhas.
  repeat split; simpl; try done. lia.
Qed.

Lemma load_fold_kept (all rows : list Row) st :
  rows ⊆ all →
  Forall (loaded_from all) st.1 →
  Forall (loaded_from all) (foldl load_step st rows).1.
Proof.
  revert st. induction rows as [|row rows IH]; intros st Hsub Hst; [done|].
  simpl. apply IH; [set_solver|]. apply load_step_kept; [set_solver|done].
Qed.

Lemma load_spotify_records_kept (rows : list Row) :
  Forall (loaded_from rows) (load_spotify_records rows).
Proof. apply load_fold_kept; [done|]. by apply Forall_nil. Qed.

Lemma loaded_row_inv (rows : list Row) (row : Row) :
  row ∈ (raw <$> load_spotify_records rows) →
  ∃ r : Track, raw r = row ∧ loaded_from rows r.
Proof.
  intros (r & -> & Hr)%list_elem_of_fmap. exists r. split; [done|].
  by eapply Forall_forall in Hr; [|apply load_spotify_records_kept].
Qed.





(** * The claims on loading and enrichment *)



(** C10. A row whose lower-cased title and album text contains the
    letters "ost" is classified as soundtrack content and is not loaded,
    whatever the row is; a title with the word "Ghost" is such a row. *)
Theorem ost_substring_excluded :
  (∀ row : Row, PyStr.contains "ost" (combined_text row) = true →
     is_soundtrack row = true) ∧
  (∀ (rows : list Row) (row : Row),
     PyStr.contains "ost" (combined_text row) = true →
     row ∉ (raw <$> load_spotify_records rows)) ∧
  is_soundtrack row_ghost = true.
Proof.
  assert (∀ row : Row, PyStr.contains "ost" (combined_text row) = true →
     is_soundtrack row = true) as Host.
  { intros row. apply contains_keyword_soundtrack.
    unfold FILM_KEYWORDS. set_solver. }
  split; [done|]. split.
  - intros rows row Hc (r & <- & Hr & _ & _ & _ & _ & Hs)%loaded_row_inv.
    rewrite (Host r Hc) in Hs. done.
  - by apply Host.
Qed.

Lemma ost_substring_excluded_witness :
  is_soundtrack row_ghost = true ∧
  row_ghost ∉ (raw <$> load_spotify_records [row_ghost; row_1999]).
Proof.
  destruct ost_substring_excluded as (Hs & Hl & _). split.
  - apply Hs. reflexivity.
  - apply Hl. reflexivity.
Defined.

Section enrichment_facts.
Context `{FloatOps}.

Lemma spotify_row_to_entry_inv (row : Track) (e : Entry) :
  spotify_row_to_entry row = Some e →
  title e = track_name row ∧ artist e = track_artist row ∧
  source e = SPOTIFY_SOURCE ∧
  popularity e = (if bool_decide (track_popularity row = EmptyString)
                  then None else PyStr.int (track_popularity row)) ∧
  niche e = match popularity e with Some p => p <? 45 | None => false end.
Proof.
  unfold spotify_row_to_entry. intros He. simplify_option_eq; try done.
  all: repeat split; try done.
  all: match goal with H : PyStr.int _ = _ |- _ => by rewrite H end.
Qed.

Lemma spotify_row_to_entry_total (row : Track) :
  floats_parse row →
  is_Some (PyStr.int (track_popularity row)) ∨ track_popularity row = EmptyString →
  is_Some (spotify_row_to_entry row).
Proof.
  intros ([? E1] & [? E2] & [? E3] & [? E4] & [? E5] & [? E6] & [? E7]
          & [? E8] & [? E9]) Hpop.
  unfold spotify_row_to_entry. rewrite E1, E2, E3, E4, E5, E6, E7, E8, E9.
  simpl. case_bool_decide as Hempty; simpl; [by eexists|].
  destruct Hpop as [[p Hp]|?]; [|done]. rewrite Hp. simpl. by eexists.
Qed.

(** C9. For a row with an empty popularity field, enrichment gives an
    entry (whenever the float fields of the row parse) whose popularity is
    [None] and whose niche flag is [False]; the threshold 45 is applied
    only to a popularity that is present. *)
Theorem empty_popularity_not_niche (row : Track) :
  track_popularity row = EmptyString →
  (floats_parse row → is_Some (spotify_row_to_entry row)) ∧
  (∀ e : Entry, spotify_row_to_entry row = Some e →
     popularity e = None ∧ niche e = false).
Proof.
  intros Hempty. split.
  - intros Hf. apply spotify_row_to_entry_total; auto.
  - intros e (_ & _ & _ & Hp & Hn)%spotify_row_to_entry_inv.
    rewrite Hempty in Hp. rewrite bool_decide_eq_true_2 in Hp by done.
    by rewrite Hn, Hp.
Qed.

End enrichment_facts.

Lemma empty_popularity_not_niche_witness :
  track_popularity track_1999 = EmptyString ∧
  is_Some (spotify_row_to_entry track_1999) ∧
  ∀ e : Entry, spotify_row_to_entry track_1999 = Some e →
    popularity e = None ∧ niche e = false.
Proof.
  pose proof (empty_popularity_not_niche (H := IntegerFloats) track_1999
                eq_refl) as [Htotal Hentry].
  split; [reflexivity|]. split; [|exact Hentry].
  apply Htotal. vm_compute. repeat split; by eexists.
Defined.

(** * Properties of dictionaries *)

Section dict_facts.
Context {K V : Type} `{EqDecision K}.
Implicit Types (d : list (K * V)) (k : K) (v : V).

Lemma dict_get_set k k' v d :
  dict_get k' (dict_set k v d) = if decide (k = k') then Some v else dict_get k' d.
Proof.
  induction d as [|[k0 v0] d IH]; csimpl.
  - repeat case_decide; done.
  - repeat (case_decide; csimpl; subst); try done.
Qed.

Lemma dict_set_keys k v d : k ∈ d.*1 → (dict_set k v d).*1 = d.*1.
Proof.
  induction d as [|[k0 v0] d IH]; csimpl; [by intros ?%elem_of_nil|].
  intros Hin. case_decide; csimpl; [by subst|].
  f_equal. apply IH. set_solver.
Qed.

Lemma dict_get_elem k v d : NoDup d.*1 → (k, v) ∈ d → dict_get k d = Some v.
Proof.
  induction d as [|[k0 v0] d IH]; csimpl; [by intros _ ?%elem_of_nil|].
  intros [Hk0 Hnd]%NoDup_cons Hin. case_decide as Hk; subst.
  - apply elem_of_cons in Hin as [[= ->]|Hin]; [done|].
    destruct Hk0. apply list_elem_of_fmap. by exists (k, v).
  - apply elem_of_cons in Hin as [[= -> ->]|Hin]; [done|]. by apply IH.
Qed.

Lemma dict_get_None k d : k ∉ d.*1 → dict_get k d = None.
Proof.
  induction d as [|[k0 v0] d IH]; csimpl; [done|].
  intros Hk. case_decide; [set_solver|]. apply IH. set_solver.
Qed.

Lemma dict_upd_keys dflt f k d :
  (dict_upd dflt f k d).*1 = if decide (k ∈ d.*1) then d.*1 else d.*1 ++ [k].
Proof.
  induction d as [|[k0 v0] d IH]; csimpl.
  { destruct (decide (k ∈ [])) as [?%elem_of_nil|]; done. }
  destruct (decide (k0 = k)) as [->|Hne]; csimpl.
  - rewrite decide_True by apply list_elem_of_here. done.
  - rewrite IH. destruct (decide (k ∈ d.*1)) as [Hin|Hin].
    + rewrite decide_True by by apply list_elem_of_further. done.
    + rewrite decide_False; [done|].
      intros [?|?]%elem_of_cons; [by subst|done].
Qed.

Lemma elem_of_dict_upd dflt f k d (kv : K * V) :
  NoDup d.*1 → kv ∈ dict_upd dflt f k d →
  (kv.1 ≠ k ∧ kv ∈ d) ∨ (kv.1 = k ∧ kv.2 = f (default dflt (dict_get k d))).
Proof.
  induction d as [|[k0 v0] d IH]; csimpl.
  - intros _ ->%list_elem_of_singleton. by right.
  - intros [Hk0 Hnd]%NoDup_cons. case_decide as Hk.
    + intros [->|Hin]%elem_of_cons; [by right|]. left. split.
      * intros <-. apply Hk0. rewrite Hk. apply list_elem_of_fmap.
        by exists kv.
      * by apply list_elem_of_further.
    + intros [->|Hin]%elem_of_cons.
      * left. split; [done|apply list_elem_of_here].
      * destruct (IH Hnd Hin) as [[? ?]|[? ?]]; [left|right]; split; try done.
        by apply list_elem_of_further.
Qed.

Lemma dict_upd_NoDup dflt f k d : NoDup d.*1 → NoDup (dict_upd dflt f k d).*1.
Proof.
  intros Hnd. rewrite dict_upd_keys. case_decide; [done|].
  apply NoDup_app. split_and!; [done|set_solver|apply NoDup_singleton].
Qed.

End dict_facts.

Lemma zsum_app (xs ys : list Z) : zsum (xs ++ ys) = zsum xs + zsum ys.
Proof. induction xs as [|x xs IH]; csimpl; lia. Qed.

Lemma zsum_perm (xs ys : list Z) : xs ≡ₚ ys → zsum xs = zsum ys.
Proof. induction 1; csimpl; lia. Qed.

Lemma zsum_dict_set (k : string) (v : Z) (d : list (string * Z)) :
  k ∈ d.*1 → zsum (dict_set k v d).*2 = zsum d.*2 - alloc_at d k + v.
Proof.
  unfold alloc_at.
  induction d as [|[k0 v0] d IH]; csimpl; [by intros ?%elem_of_nil|].
  intros Hin. case_decide; csimpl; [lia|].
  rewrite IH by set_solver. lia.
Qed.

Lemma zsum_alloc_at (d : list (string * Z)) :
  NoDup d.*1 → zsum d.*2 = zsum (alloc_at d <$> d.*1).
Proof.
  unfold alloc_at.
  induction d as [|[k0 v0] d IH]; csimpl; [done|].
  intros [Hk0 Hnd]%NoDup_cons. rewrite decide_True by done. csimpl.
  rewrite IH by done. f_equal. f_equal. apply list_fmap_ext.
  intros i k Hk. case_decide; [|done]. subst.
  destruct Hk0. by eapply list_elem_of_lookup_2.
Qed.

Lemma alloc_at_set (k k' : string) (v : Z) (d : list (string * Z)) :
  alloc_at (dict_set k v d) k' = if decide (k = k') then v else alloc_at d k'.
Proof. unfold alloc_at. rewrite dict_get_set. by case_decide. Qed.

(** * Properties of the sort *)

Section sort_facts.
Context {A : Type} (before : A → A → bool).

Lemma insert_sorted_perm x l : insert_sorted before x l ≡ₚ x :: l.
Proof.
  induction l as [|y l IH]; simpl; [done|].
  destruct (before x y); [done|]. rewrite IH. apply Permutation_swap.
Qed.

Lemma stable_sort_perm l : stable_sort before l ≡ₚ l.
Proof.
  induction l as [|x l IH]; simpl; [done|].
  by rewrite insert_sorted_perm, IH.
Qed.

Hypothesis before_total : ∀ x y, before x y = false → before y x = true.
Hypothesis before_trans :
  ∀ x y z, before x y = true → before y z = true → before x z = true.

Lemma insert_sorted_sorted x l :
  StronglySorted (λ a b, before a b = true) l →
  StronglySorted (λ a b, before a b = true) (insert_sorted before x l).
Proof.
  induction 1 as [|y l Hl IH Hy]; simpl; [repeat constructor|].
  destruct (before x y) eqn:Hxy.
  - constructor; [by constructor|]. constructor; [done|].
    eapply Forall_impl; [exact Hy|]. intros z Hz. by eapply before_trans.
  - constructor; [done|]. rewrite insert_sorted_perm.
    constructor; [by apply before_total|done].
Qed.

Lemma stable_sort_sorted l :
  StronglySorted (λ a b, before a b = true) (stable_sort before l).
Proof.
  induction l as [|x l IH]; simpl; [constructor|].
  by apply insert_sorted_sorted.
Qed.

End sort_facts.

(** * Properties of the grouping by genre *)

Lemma group_add_concat (row : Track) (k : string)
    (d : list (string * list Track)) :
  concat (dict_upd [] (λ items, items ++ [row]) k d).*2 ≡ₚ concat d.*2 ++ [row].
Proof.
  induction d as [|[k0 items] d IH]; csimpl; [done|].
  case_decide; csimpl.
  - rewrite <- !app_assoc. apply Permutation_app_head, Permutation_app_comm.
  - by rewrite IH, app_assoc.
Qed.

Lemma group_add_nonempty (row : Track) (k : string)
    (d : list (string * list Track)) :
  nonempty_groups d →
  nonempty_groups (dict_upd [] (λ items, items ++ [row]) k d).
Proof.
  unfold nonempty_groups.
  induction d as [|[k0 items] d IH]; csimpl; intros Hd kv.
  - intros ->%list_elem_of_singleton. done.
  - case_decide.
    + intros [->|Hin]%elem_of_cons; [by destruct items|].
      apply Hd. by apply list_elem_of_further.
    + intros [->|Hin]%elem_of_cons.
      * apply (Hd (k0, items)), list_elem_of_here.
      * apply IH; [|done]. intros ? ?. by apply Hd, list_elem_of_further.
Qed.

Lemma group_fold_inv (bucket : list Track) (acc : list (string * list Track)) :
  NoDup acc.*1 → nonempty_groups acc →
  let groups :=
    foldl (λ groups (row : Track),
             dict_upd [] (λ items, items ++ [row]) (playlist_genre row) groups)
          acc bucket in
  NoDup groups.*1 ∧ nonempty_groups groups ∧
  concat groups.*2 ≡ₚ concat acc.*2 ++ bucket.
Proof.
  revert acc. induction bucket as [|row bucket IH]; intros acc Hnd Hne; simpl.
  - by rewrite app_nil_r.
  - destruct (IH _ (dict_upd_NoDup [] (λ items, items ++ [row])
                      (playlist_genre row) acc Hnd)
                   (group_add_nonempty row _ acc Hne)) as (? & ? & Hc).
    split_and!; [done..|]. rewrite Hc, group_add_concat.
    by rewrite <- app_assoc.
Qed.

Lemma group_by_genre_inv (bucket : list Track) :
  NoDup (group_by_genre bucket).*1 ∧
  nonempty_groups (group_by_genre bucket) ∧
  concat (group_by_genre bucket).*2 ≡ₚ bucket.
Proof.
  apply (group_fold_inv bucket []); [constructor|].
  by intros ? ?%elem_of_nil.
Qed.

Lemma total_size_concat (groups : list (string * list Track)) :
  total_size groups = len (concat groups.*2).
Proof.
  unfold total_size.
  induction groups as [|[k items] groups IH]; csimpl; [done|].
  rewrite length_app, IH. lia.
Qed.

Lemma total_size_bucket (bucket : list Track) :
  total_size (group_by_genre bucket) = len bucket.
Proof.
  rewrite total_size_concat.
  destruct (group_by_genre_inv bucket) as (_ & _ & ->). done.
Qed.

(** * Properties of the allocation plan *)

Lemma zsum_fmap_le {A} (f g : A → Z) (l : list A) :
  (∀ x, x ∈ l → f x ≤ g x) → zsum (f <$> l) ≤ zsum (g <$> l).
Proof.
  induction l as [|x l IH]; csimpl; intros Hl; [done|].
  pose proof (Hl x (list_elem_of_here _ _)).
  assert (zsum (f <$> l) ≤ zsum (g <$> l)).
  { apply IH. intros ? ?. by apply Hl, list_elem_of_further. }
  lia.
Qed.

Lemma zsum_fmap_ext_in {A} (f g : A → Z) (l : list A) :
  (∀ x, x ∈ l → f x = g x) → zsum (f <$> l) = zsum (g <$> l).
Proof.
  intros Hl. apply Z.le_antisymm; apply zsum_fmap_le; intros x Hx;
    rewrite (Hl x Hx); lia.
Qed.

Lemma zsum_ones {A} (l : list A) : zsum ((λ _, 1) <$> l) = len l.
Proof. induction l as [|x l IH]; csimpl; lia. Qed.

Lemma plan_sum (groups : list (string * list Track))
    (allocs : list (string * Z)) :
  NoDup groups.*1 → allocs.*1 = groups.*1 →
  zsum allocs.*2 = zsum ((λ kv, alloc_at allocs kv.1) <$> groups).
Proof.
  intros Hnd Hk. rewrite zsum_alloc_at by by rewrite Hk.
  by rewrite Hk, <- list_fmap_compose.
Qed.

Lemma plan_sum_bounds (groups : list (string * list Track))
    (allocs : list (string * Z)) :
  NoDup groups.*1 → plan_ok groups allocs →
  len groups ≤ zsum allocs.*2 ≤ total_size groups.
Proof.
  intros Hnd [Hk Hb]. rewrite (plan_sum groups allocs Hnd Hk).
  rewrite <- (zsum_ones groups). unfold total_size.
  split; apply zsum_fmap_le; intros kv Hkv; apply (Hb kv Hkv).
Qed.

Lemma group_size_unique (groups : list (string * list Track)) kv kv' :
  NoDup groups.*1 → kv ∈ groups → kv' ∈ groups → kv.1 = kv'.1 → kv = kv'.
Proof.
  intros Hnd Hkv Hkv' Heq. destruct kv as [k v], kv' as [k' v'].
  simpl in Heq. subst k'. f_equal.
  pose proof (dict_get_elem k v groups Hnd Hkv).
  pose proof (dict_get_elem k v' groups Hnd Hkv'). congruence.
Qed.

Lemma initial_allocations_ok (target : Z)
    (groups : list (string * list Track)) :
  NoDup groups.*1 → nonempty_groups groups →
  plan_ok groups (initial_allocations target groups).
Proof.
  intros Hnd Hne.
  assert ((initial_allocations target groups).*1 = groups.*1) as Hk.
  { unfold initial_allocations. rewrite <- list_fmap_compose.
    by apply list_fmap_ext. }
  split; [done|]. intros kv Hkv. unfold alloc_at.
  erewrite dict_get_elem; [| by rewrite Hk |
    unfold initial_allocations; apply list_elem_of_fmap; by exists kv].
  simpl. pose proof (Hne kv Hkv). destruct (kv.2); [done|]. simpl length. lia.
Qed.

(** ** The shortfall branch *)

Lemma shortfall_step_facts (groups : list (string * list Track))
    (allocs : list (string * Z)) (diff : Z) (kv : string * list Track) :
  NoDup groups.*1 → kv ∈ groups → plan_ok groups allocs → 0 ≤ diff →
  let s := shortfall_step (allocs, diff) kv in
  plan_ok groups s.1 ∧
  alloc_at s.1 kv.1 = alloc_at allocs kv.1 + Z.min (headroom allocs kv) diff ∧
  s.2 = diff - Z.min (headroom allocs kv) diff ∧
  (∀ k, k ≠ kv.1 → alloc_at s.1 k = alloc_at allocs k) ∧
  zsum s.1.*2 + s.2 = zsum allocs.*2 + diff.
Proof.
  intros Hnd Hkv [Hk Hb] Hdiff. unfold shortfall_step, headroom.
  pose proof (Hb kv Hkv) as Hkvb.
  destruct (Z.leb_spec diff 0); simpl.
  { split_and!; [done|lia|lia|done|done]. }
  destruct (Z.leb_spec (len kv.2 - alloc_at allocs kv.1) 0); simpl.
  { split_and!; [done|lia|lia|done|done]. }
  assert (kv.1 ∈ allocs.*1) as Hin.
  { rewrite Hk. apply list_elem_of_fmap. by exists kv. }
  split_and!.
  - split; [by rewrite dict_set_keys|]. intros kv' Hkv'.
    rewrite alloc_at_set. case_decide as Heq; [|by apply Hb].
    rewrite <- (group_size_unique groups kv kv' Hnd Hkv Hkv' Heq). lia.
  - rewrite alloc_at_set, decide_True by done. lia.
  - lia.
  - intros k Hne. rewrite alloc_at_set, decide_False by done. done.
  - rewrite zsum_dict_set by done. lia.
Qed.

Lemma shortfall_fold (groups : list (string * list Track))
    (todo : list (string * list Track)) :
  NoDup groups.*1 →
  ∀ (allocs : list (string * Z)) (diff : Z),
  todo ⊆ groups → plan_ok groups allocs → 0 ≤ diff →
  let r := foldl shortfall_step (allocs, diff) todo in
  plan_ok groups r.1 ∧ 0 ≤ r.2 ≤ diff ∧
  zsum r.1.*2 + r.2 = zsum allocs.*2 + diff ∧
  (∀ k, alloc_at allocs k ≤ alloc_at r.1 k) ∧
  (r.2 = 0 ∨ ∀ kv, kv ∈ todo → alloc_at r.1 kv.1 = len kv.2).
Proof.
  intros Hnd. induction todo as [|kv todo IH]; intros allocs diff Hsub Hok Hdiff.
  { cbn. split_and!; try done; try lia. right. by intros ? ?%elem_of_nil. }
  assert (kv ∈ groups) as Hkv by (apply Hsub, list_elem_of_here).
  pose proof (shortfall_step_facts groups allocs diff kv Hnd Hkv Hok Hdiff)
    as Hs.
  cbv zeta in *. cbn [foldl].
  destruct (shortfall_step (allocs, diff) kv) as [allocs1 diff1].
  cbn [fst snd] in Hs. destruct Hs as (Hok1 & Ha1 & Hd1 & Hother & Hsum1).
  assert (0 ≤ headroom allocs kv) as Hh.
  { unfold headroom. destruct Hok as [_ Hb]. pose proof (Hb kv Hkv). lia. }
  destruct (IH allocs1 diff1) as (Hok2 & Hd2 & Hsum2 & Hmono2 & Hfull2);
    [set_solver|done|lia|].
  split_and!; [done|lia|lia|lia| |].
  - intros k. etrans; [|apply Hmono2].
    destruct (decide (k = kv.1)) as [->|Hne]; [lia|].
    rewrite Hother by done. done.
  - destruct Hfull2 as [?|Hfull2]; [by left|].
    destruct (decide (diff1 = 0)) as [Hz|Hnz]; [left; lia|].
    right. intros kv' [->|Hin]%elem_of_cons; [|by apply Hfull2].
    destruct Hok2 as [_ Hb2]. pose proof (Hb2 kv Hkv).
    pose proof (Hmono2 kv.1). unfold headroom in *. lia.
Qed.

(** ** The overflow branch *)

Lemma trim_loop_spec (fuel : nat) (a diff : Z) :
  (Z.to_nat (a - 1) ≤ fuel)%nat → 0 ≤ diff →
  trim_loop fuel a diff =
    (a - Z.max 0 (Z.min (a - 1) diff), diff - Z.max 0 (Z.min (a - 1) diff)).
Proof.
  revert a diff. induction fuel as [|fuel IH]; intros a diff Hfuel Hdiff; simpl.
  { f_equal; lia. }
  destruct (Z.ltb_spec 1 a), (Z.ltb_spec 0 diff); simpl; try (f_equal; lia).
  destruct (Z.eqb_spec (diff - 1) 0); [f_equal; lia|].
  rewrite IH by lia. f_equal; lia.
Qed.

Lemma overflow_step_facts (groups : list (string * list Track))
    (allocs : list (string * Z)) (diff : Z) (kv : string * Z) :
  kv.1 ∈ groups.*1 → plan_ok groups allocs → 0 ≤ diff →
  let s := overflow_step (allocs, diff) kv in
  plan_ok groups s.1 ∧ 0 ≤ s.2 ≤ diff ∧
  zsum s.1.*2 - s.2 = zsum allocs.*2 - diff ∧
  (∀ k, 1 ≤ alloc_at allocs k → 1 ≤ alloc_at s.1 k ≤ alloc_at allocs k) ∧
  (s.2 = 0 ∨ alloc_at s.1 kv.1 = 1).
Proof.
  intros Hkv [Hk Hb] Hdiff. unfold overflow_step.
  destruct (Z.eqb_spec diff 0); cbn [fst snd].
  { split_and!; try done; try lia; by left. }
  rewrite trim_loop_spec by lia. cbn [fst snd].
  assert (1 ≤ alloc_at allocs kv.1) as Ha.
  { apply list_elem_of_fmap in Hkv as (kv' & -> & Hkv').
    apply (Hb kv' Hkv'). }
  split_and!.
  - split; [rewrite dict_set_keys; [done|by rewrite Hk]|].
    intros kv' Hkv'. rewrite alloc_at_set. pose proof (Hb kv' Hkv').
    case_decide as Heq; [rewrite Heq in *|]; lia.
  - lia.
  - lia.
  - rewrite zsum_dict_set by by rewrite Hk. lia.
  - intros k Hk1. rewrite alloc_at_set. case_decide; subst; lia.
  - rewrite alloc_at_set, decide_True by done. lia.
Qed.

Lemma overflow_fold (groups : list (string * list Track))
    (todo : list (string * Z)) :
  ∀ (allocs : list (string * Z)) (diff : Z),
  todo.*1 ⊆ groups.*1 → plan_ok groups allocs → 0 ≤ diff →
  let r := foldl overflow_step (allocs, diff) todo in
  plan_ok groups r.1 ∧ 0 ≤ r.2 ≤ diff ∧
  zsum r.1.*2 - r.2 = zsum allocs.*2 - diff ∧
  (∀ k, 1 ≤ alloc_at allocs k → 1 ≤ alloc_at r.1 k ≤ alloc_at allocs k) ∧
  (r.2 = 0 ∨ ∀ kv, kv ∈ todo → alloc_at r.1 kv.1 = 1).
Proof.
  induction todo as [|kv todo IH]; intros allocs diff Hsub Hok Hdiff.
  { simpl. split_and!; try done; try lia. right. by intros ? ?%elem_of_nil. }
  assert (kv.1 ∈ groups.*1) as Hkv by (apply Hsub; csimpl; apply list_elem_of_here).
  pose proof (overflow_step_facts groups allocs diff kv Hkv Hok Hdiff) as Hs.
  cbv zeta in *. cbn [foldl].
  destruct (overflow_step (allocs, diff) kv) as [allocs1 diff1].
  cbn [fst snd] in Hs. destruct Hs as (Hok1 & Hd1 & Hsum1 & Hmono1 & Hone1).
  destruct (IH allocs1 diff1) as (Hok2 & Hd2 & Hsum2 & Hmono2 & Hone2);
    [set_solver|done|lia|].
  split_and!; [done|lia|lia|lia| |].
  - intros k Hk1. pose proof (Hmono1 k Hk1). pose proof (Hmono2 k). lia.
  - destruct Hone2 as [?|Hone2]; [by left|].
    destruct Hone1 as [?|Hone1]; [left; lia|].
    right. intros kv' [->|Hin]%elem_of_cons; [|by apply Hone2].
    pose proof (Hmono2 kv.1). lia.
Qed.

(** ** The reconciled plan *)

Lemma reconcile_ok (groups : list (string * list Track))
    (allocs : list (string * Z)) (target : Z) :
  NoDup groups.*1 → plan_ok groups allocs → target < total_size groups →
  plan_ok groups (reconcile target groups allocs) ∧
  zsum (reconcile target groups allocs).*2 = Z.max target (len groups).
Proof.
  intros Hnd Hok Htot. unfold reconcile.
  pose proof (plan_sum_bounds groups allocs Hnd Hok) as Hb.
  destruct (Z.ltb_spec (zsum allocs.*2) target) as [Hlt|Hge].
  - destruct (shortfall_fold groups (shortfall_order allocs groups) Hnd
                allocs (target - zsum allocs.*2))
      as (Hok' & Hd & Hsum & _ & Hfull); [|done|lia|].
    { intros kv. unfold shortfall_order. by rewrite stable_sort_perm. }
    split; [done|]. destruct Hfull as [Hz|Hfull]; [lia|]. exfalso.
    assert (zsum (foldl shortfall_step (allocs, target - zsum allocs.*2)
                    (shortfall_order allocs groups)).1.*2
            = total_size groups) as Hall.
    { rewrite (plan_sum groups) by (done || apply Hok').
      apply zsum_fmap_ext_in. intros kv Hkv. apply Hfull.
      unfold shortfall_order. by rewrite stable_sort_perm. }
    lia.
  - destruct (Z.ltb_spec target (zsum allocs.*2)) as [Hgt|Hle].
    + destruct (overflow_fold groups (overflow_order allocs)
                  allocs (zsum allocs.*2 - target))
        as (Hok' & Hd & Hsum & _ & Hone); [|done|lia|].
      { intros k. unfold overflow_order. rewrite stable_sort_perm.
        by rewrite (proj1 Hok). }
      split; [done|].
      pose proof (plan_sum_bounds groups _ Hnd Hok') as Hb'.
      destruct Hone as [Hz|Hone]; [lia|].
      assert (zsum (foldl overflow_step (allocs, zsum allocs.*2 - target)
                      (overflow_order allocs)).1.*2 = len groups) as Hall.
      { rewrite (plan_sum groups) by (done || apply Hok').
        rewrite <- (zsum_ones groups).
        apply zsum_fmap_ext_in. intros kv Hkv.
        assert (kv.1 ∈ (overflow_order allocs).*1) as Hin.
        { unfold overflow_order. rewrite stable_sort_perm, (proj1 Hok).
          apply list_elem_of_fmap. by exists kv. }
        apply list_elem_of_fmap in Hin as (kv' & -> & Hkv').
        by apply Hone. }
      lia.
    + split; [done|]. lia.
Qed.

Lemma allocation_plan_ok (bucket : list Track) (target : Z) :
  target < len bucket →
  plan_ok (group_by_genre bucket) (allocation_plan bucket target) ∧
  zsum (allocation_plan bucket target).*2
    = Z.max target (len (group_by_genre bucket)).
Proof.
  intros Hlt. destruct (group_by_genre_inv bucket) as (Hnd & Hne & _).
  apply reconcile_ok; [done| |by rewrite total_size_bucket].
  by apply initial_allocations_ok.
Qed.

(** the items of a group are the rows of the bucket of that genre *)
Lemma group_by_genre_items (bucket : list Track) :
  (∀ kv, kv ∈ group_by_genre bucket →
     kv.2 = filter (λ r : Track, playlist_genre r = kv.1) bucket) ∧
  (∀ r : Track, r ∈ bucket → playlist_genre r ∈ (group_by_genre bucket).*1).
Proof.
  induction bucket as [|row bucket [IH1 IH2]] using rev_ind.
  { split; [by intros ? ?%elem_of_nil|by intros ? ?%elem_of_nil]. }
  destruct (group_by_genre_inv bucket) as (Hnd & _ & _).
  unfold group_by_genre in *. rewrite foldl_app. cbn [foldl].
  set (groups := foldl _ [] bucket) in *.
  split.
  - intros kv [[Hne Hin]|[Heq Hval]]%elem_of_dict_upd; [| |done].
    + rewrite filter_app, filter_cons, decide_False by done.
      rewrite filter_nil, app_nil_r. by apply IH1.
    + rewrite filter_app, filter_cons, decide_True by done.
      rewrite Hval, Heq. f_equal.
      destruct (decide (playlist_genre row ∈ groups.*1)) as [Hin|Hnot].
      * apply list_elem_of_fmap in Hin as ([k v] & Hk & Hin). simpl in Hk.
        subst k. rewrite (dict_get_elem _ v groups Hnd Hin). simpl.
        apply (IH1 _ Hin).
      * rewrite dict_get_None by done. simpl. symmetry.
        apply elem_of_nil_inv. intros r [Hg Hr]%list_elem_of_filter.
        apply Hnot. rewrite <- Hg. by apply IH2.
  - intros r Hr. rewrite dict_upd_keys.
    apply elem_of_app in Hr as [Hr|Hr%list_elem_of_singleton].
    + case_decide; [|apply elem_of_app; left]; by apply IH2.
    + subst r. case_decide; [done|]. apply elem_of_app. right.
      apply list_elem_of_here.
Qed.

(** ** The closed form of the shortfall branch *)






(** * The claims on the allocation plan *)

(** C1, as the code has it. For a bucket larger than the target, the
    reconciled quotas sum to the larger of the target and the number of
    genres of the bucket, hence to min(target, bucket size) = target when
    the bucket has at most [target] genres; each genre of the bucket has a
    quota, between 1 and the number of rows of that genre. *)
Theorem allocation_sum_and_bounds (bucket : list Track) (target : Z) :
  target < len bucket →
  zsum (allocation_plan bucket target).*2
    = Z.max target (len (group_by_genre bucket)) ∧
  (len (group_by_genre bucket) ≤ target →
     zsum (allocation_plan bucket target).*2 = Z.min target (len bucket)) ∧
  (∀ r : Track, r ∈ bucket →
     playlist_genre r ∈ (allocation_plan bucket target).*1) ∧
  (∀ genre : string, genre ∈ (allocation_plan bucket target).*1 →
     1 ≤ alloc_at (allocation_plan bucket target) genre
       ≤ len (filter (λ r : Track, playlist_genre r = genre) bucket)).
Proof.
  intros Hlt. destruct (allocation_plan_ok bucket target Hlt) as [[Hk Hb] Hsum].
  destruct (group_by_genre_items bucket) as [Hitems Hgenres].
  split_and!.
  - done.
  - intros Hfew. rewrite Hsum. lia.
  - intros r Hr. rewrite Hk. by apply Hgenres.
  - intros genre Hg. rewrite Hk in Hg.
    apply list_elem_of_fmap in Hg as (kv & -> & Hkv).
    rewrite <- (Hitems kv Hkv). apply (Hb kv Hkv).
Qed.

Lemma allocation_sum_and_bounds_witness :
  allocation_plan three_genres 100 = [("pop", 60); ("rock", 30); ("rap", 10)] ∧
  zsum (allocation_plan three_genres 100).*2 = Z.min 100 (len three_genres).
Proof.
  split; [by vm_compute|].
  apply (allocation_sum_and_bounds three_genres 100); by vm_compute.
Defined.

(** C1, as stated, fails: 101 rows of 101 genres with the target 100 of
    the decade 2020 get one quota each, 101 in all. *)
Lemma allocation_sum_counterexample :
  100 < len many_genres ∧
  zsum (allocation_plan many_genres 100).*2 = 101 ∧
  Z.min 100 (len many_genres) = 100.
Proof. by vm_compute. Qed.




(** * Properties of the sampler and of the selection by decade *)

Lemma filter_none {A} (P : A → Prop) `{∀ x, Decision (P x)} (l : list A) :
  (∀ x, x ∈ l → ¬ P x) → filter P l = [].
Proof.
  intros Hl. apply elem_of_nil_inv. intros x [HP Hx]%list_elem_of_filter.
  by apply (Hl x).
Qed.

Lemma filter_all {A} (P : A → Prop) `{∀ x, Decision (P x)} (l : list A) :
  (∀ x, x ∈ l → P x) → filter P l = l.
Proof.
  induction l as [|x l IH]; intros Hl; [done|].
  rewrite filter_cons, decide_True by apply Hl, list_elem_of_here.
  f_equal. apply IH. intros ? ?. by apply Hl, list_elem_of_further.
Qed.

Lemma slice_to_subseteq {A} (n : Z) (l : list A) : slice_to n l ⊆ l.
Proof. unfold slice_to. case_match; apply subseteq_take. Qed.

Lemma slice_to_length {A} (n : Z) (l : list A) :
  0 ≤ n → len (slice_to n l) = Z.min n (len l).
Proof.
  intros Hn. unfold slice_to. rewrite (proj2 (Z.leb_le 0 n)) by done.
  rewrite length_take. lia.
Qed.

Section selection_facts.
Context `{RandomSource}.

Lemma draw_step_shape (allocs : list (string * Z))
    (st : list Track * rng_state) (kv : string * list Track) :
  ∃ drawn : list Track,
    (draw_step allocs st kv).1 = st.1 ++ drawn ∧ drawn ⊆ kv.2 ∧
    (1 ≤ alloc_at allocs kv.1 ≤ len kv.2 → len drawn = alloc_at allocs kv.1).
Proof.
  unfold draw_step. fold (alloc_at allocs kv.1).
  destruct (Z.leb_spec (alloc_at allocs kv.1) 0).
  { exists []. rewrite app_nil_r. split_and!; [done|set_solver|lia]. }
  destruct (Z.leb_spec (len kv.2) (alloc_at allocs kv.1)); cbn [fst snd].
  { exists kv.2. split_and!; [done|done|lia]. }
  eexists. split_and!; [done| |].
  - intros r Hr. eapply elem_of_submseteq; [exact Hr|].
    apply rng_sample_submseteq. lia.
  - intros _. rewrite rng_sample_length by lia. lia.
Qed.

Lemma draw_fold_shape (allocs : list (string * Z))
    (groups : list (string * list Track)) (st : list Track * rng_state) :
  ∃ drawn : list Track,
    (foldl (draw_step allocs) st groups).1 = st.1 ++ drawn ∧
    (∀ r, r ∈ drawn → ∃ kv, kv ∈ groups ∧ r ∈ kv.2) ∧
    ((∀ kv, kv ∈ groups → 1 ≤ alloc_at allocs kv.1 ≤ len kv.2) →
     len drawn = zsum ((λ kv, alloc_at allocs kv.1) <$> groups)).
Proof.
  revert st. induction groups as [|kv groups IH]; intros st; cbn [foldl].
  { exists []. rewrite app_nil_r. split_and!; [done| |done].
    by intros ? ?%elem_of_nil. }
  destruct (draw_step_shape allocs st kv) as (d1 & E1 & Hsub1 & Hlen1).
  destruct (IH (draw_step allocs st kv)) as (d2 & E2 & Hsub2 & Hlen2).
  exists (d1 ++ d2). split_and!.
  - by rewrite E2, E1, app_assoc.
  - intros r [Hr|Hr]%elem_of_app.
    + exists kv. split; [apply list_elem_of_here|by apply Hsub1].
    + destruct (Hsub2 r Hr) as (kv' & ? & ?). exists kv'.
      split; [by apply list_elem_of_further|done].
  - intros Hb. csimpl. rewrite length_app, Nat2Z.inj_add.
    rewrite Hlen1 by apply Hb, list_elem_of_here.
    rewrite Hlen2; [done|]. intros ? ?. by apply Hb, list_elem_of_further.
Qed.

Lemma stratified_sample_subseteq (g : rng_state) (bucket : list Track)
    (target : Z) : (stratified_sample g bucket target).1 ⊆ bucket.
Proof.
  unfold stratified_sample. case_match; [done|].
  destruct (draw_fold_shape (allocation_plan bucket target)
              (group_by_genre bucket) ([], g)) as (drawn & -> & Hsub & _).
  intros r Hr. destruct (Hsub r Hr) as (kv & Hkv & Hin).
  destruct (group_by_genre_items bucket) as [Hitems _].
  rewrite (Hitems kv Hkv) in Hin. by apply list_elem_of_filter in Hin as [_ ?].
Qed.

Lemma stratified_sample_small (g : rng_state) (bucket : list Track)
    (target : Z) :
  len bucket ≤ target → stratified_sample g bucket target = (bucket, g).
Proof.
  intros Hle. unfold stratified_sample.
  by rewrite (proj2 (Z.leb_le _ _) Hle).
Qed.

Lemma stratified_sample_length (g : rng_state) (bucket : list Track)
    (target : Z) :
  target < len bucket →
  len (stratified_sample g bucket target).1
    = Z.max target (len (group_by_genre bucket)).
Proof.
  intros Hlt. unfold stratified_sample.
  rewrite (proj2 (Z.leb_gt _ _) Hlt).
  destruct (allocation_plan_ok bucket target Hlt) as [Hok Hsum].
  destruct (group_by_genre_inv bucket) as (Hnd & _ & _).
  destruct (draw_fold_shape (allocation_plan bucket target)
              (group_by_genre bucket) ([], g)) as (drawn & -> & _ & Hlen).
  cbn [fst app]. rewrite Hlen by apply Hok.
  rewrite <- (plan_sum _ _ Hnd (proj1 Hok)). done.
Qed.

Lemma backfill_picks_subseteq (g : rng_state) (bucket picks : list Track)
    (target : Z) :
  picks ⊆ bucket → (backfill_picks g bucket picks target).1 ⊆ bucket.
Proof.
  intros Hsub. unfold backfill_picks. case_match; [|done].
  case_match; [|done]. cbn [fst]. intros r [Hr|Hr]%elem_of_app.
  - by apply Hsub.
  - eapply elem_of_submseteq in Hr; [|apply rng_sample_submseteq; lia].
    by apply list_elem_of_filter in Hr as [_ ?].
Qed.

Lemma backfill_picks_enough (g : rng_state) (bucket picks : list Track)
    (target : Z) :
  target ≤ len picks → backfill_picks g bucket picks target = (picks, g).
Proof.
  intros Hle. unfold backfill_picks.
  by rewrite (proj2 (Z.ltb_ge _ _) Hle).
Qed.

Lemma backfill_picks_whole (g : rng_state) (bucket : list Track) (target : Z) :
  backfill_picks g bucket bucket target = (bucket, g).
Proof.
  unfold backfill_picks. case_match; [|done].
  rewrite filter_none; [by rewrite bool_decide_eq_false_2 by auto|].
  intros r Hr Hnot. apply Hnot. unfold ids_of.
  apply elem_of_list_to_set, list_elem_of_fmap. by exists r.
Qed.

(** what one iteration of the loop over the decades adds *)
Lemma select_step_shape (records : list Track)
    (st : list Track * gset string * rng_state) (dt : Z * Z) :
  ∃ chunk : list Track,
    (select_step records st dt).1.1 = st.1.1 ++ chunk ∧
    chunk ⊆ decade_bucket records st.1.2 dt.1 ∧
    st.1.2 ⊆ (select_step records st dt).1.2 ∧
    (∀ r : Track, r ∈ chunk → track_id r ∈ (select_step records st dt).1.2) ∧
    (0 ≤ dt.2 →
     len chunk = Z.min (len (decade_bucket records st.1.2 dt.1)) dt.2).
Proof.
  destruct st as [[selected used_ids] g]. unfold select_step. cbn [fst snd].
  destruct (decade_bucket records used_ids dt.1) as [|r0 bucket] eqn:Hb.
  { exists []. rewrite app_nil_r. split_and!; try done.
    - by intros ? ?%elem_of_nil.
    - intros ?. simpl. lia. }
  rewrite <- Hb. set (b := decade_bucket records used_ids dt.1) in *.
  clearbody b.
  set (sampled := stratified_sample g b dt.2).
  set (picks := backfill_picks sampled.2 b sampled.1 dt.2).
  assert (picks.1 ⊆ b) as Hpicks.
  { apply backfill_picks_subseteq, stratified_sample_subseteq. }
  exists (slice_to dt.2 picks.1). cbn [fst snd]. split_and!.
  - done.
  - etrans; [apply slice_to_subseteq|done].
  - set_solver.
  - intros r Hr%slice_to_subseteq. apply elem_of_union. left.
    unfold ids_of. apply elem_of_list_to_set, list_elem_of_fmap. by exists r.
  - intros Ht. rewrite slice_to_length by done. subst picks sampled.
    destruct (Z.le_gt_cases (len b) dt.2) as [Hle|Hgt].
    + rewrite stratified_sample_small by done. cbn [fst snd].
      rewrite backfill_picks_whole. cbn [fst]. lia.
    + pose proof (stratified_sample_length g b dt.2 Hgt) as Hlen.
      rewrite backfill_picks_enough by lia. cbn [fst]. lia.
Qed.

Lemma select_fold_shape (records : list Track) (decades : list (Z * Z))
    (st : list Track * gset string * rng_state) :
  ∃ extra : list Track,
    (foldl (select_step records) st decades).1.1 = st.1.1 ++ extra ∧
    (∀ r : Track, r ∈ extra → decade r ∈ decades.*1) ∧
    st.1.2 ⊆ (foldl (select_step records) st decades).1.2.
Proof.
  revert st. induction decades as [|dt decades IH]; intros st; cbn [foldl].
  { exists []. rewrite app_nil_r. split_and!; [done| |done].
    by intros ? ?%elem_of_nil. }
  destruct (select_step_shape records st dt) as (chunk & E1 & Hc & Hu & _).
  destruct (IH (select_step records st dt)) as (extra & E2 & He & Hu2).
  exists (chunk ++ extra). split_and!.
  - by rewrite E2, E1, app_assoc.
  - intros r [Hr|Hr]%elem_of_app; csimpl.
    + apply Hc, list_elem_of_filter in Hr as [[<- _] _]. apply list_elem_of_here.
    + apply list_elem_of_further. by apply He.
  - set_solver.
Qed.

Lemma select_step_partitioned (records : list Track)
    (st : list Track * gset string * rng_state) (dt : Z * Z) :
  partitioned st → partitioned (select_step records st dt).
Proof.
  intros [Hused Hpart].
  destruct (select_step_shape records st dt) as (chunk & E & Hc & Hu & Hnew & _).
  assert (∀ r : Track, r ∈ chunk → decade r = dt.1 ∧ track_id r ∉ st.1.2)
    as Hchunk.
  { intros r Hr. by apply Hc, list_elem_of_filter in Hr as [? _]. }
  split; rewrite E.
  - intros r [Hr|Hr]%elem_of_app; [by apply Hu, Hused|by apply Hnew].
  - intros r1 r2 [H1|H1]%elem_of_app [H2|H2]%elem_of_app Hd.
    + by apply Hpart.
    + intros Heq. destruct (Hchunk r2 H2) as [_ Hfresh].
      apply Hfresh. rewrite <- Heq. by apply Hused.
    + intros Heq. destruct (Hchunk r1 H1) as [_ Hfresh].
      apply Hfresh. rewrite Heq. by apply Hused.
    + destruct (Hchunk r1 H1) as [E1 _], (Hchunk r2 H2) as [E2 _]. congruence.
Qed.

Lemma select_loop_partitioned (records : list Track) (g : rng_state)
    (decades : list (Z * Z)) : partitioned (select_loop records g decades).
Proof.
  unfold select_loop.
  induction decades as [|dt decades IH] using rev_ind.
  - split; [by intros ? ?%elem_of_nil|by intros ? ? ?%elem_of_nil].
  - rewrite foldl_app. cbn [foldl]. by apply select_step_partitioned.
Qed.

End selection_facts.

(** * The claims on the selection by decade *)

Lemma DECADE_TARGETS_NoDup : NoDup DECADE_TARGETS.*1.
Proof. apply (bool_decide_unpack _). by vm_compute. Qed.

Lemma DECADE_TARGETS_positive (d t : Z) : (d, t) ∈ DECADE_TARGETS → 0 < t.
Proof.
  unfold DECADE_TARGETS. rewrite !elem_of_cons, elem_of_nil.
  intros [?|[?|[?|[?|[?|[?|[?|[]]]]]]]]; simplify_eq; lia.
Qed.

Section selection_claims.
Context `{RandomSource}.

(** C5. Rows selected for different decades never share an identifier:
    the rows a decade adds to the selection come from its bucket, which
    holds rows of that decade whose identifier is not yet used, and every
    identifier selected is marked used before the next bucket is built. *)
Theorem decades_strictly_partitioned (g : rng_state) (records : list Track) :
  (∀ r1 r2 : Track,
     r1 ∈ (select_spotify_subset g records).1 →
     r2 ∈ (select_spotify_subset g records).1 →
     decade r1 ≠ decade r2 → track_id r1 ≠ track_id r2) ∧
  (∀ (reached : list (Z * Z)) (dt : Z * Z),
     ∃ chunk : list Track,
       (select_loop records g (reached ++ [dt])).1.1
         = (select_loop records g reached).1.1 ++ chunk ∧
       (∀ r : Track, r ∈ chunk →
          decade r = dt.1 ∧
          (track_id r ∉ (select_loop records g reached).1.2) ∧
          (track_id r ∈ (select_loop records g (reached ++ [dt])).1.2)) ∧
       (∀ r : Track, r ∈ (select_loop records g reached).1.1 →
          track_id r ∈ (select_loop records g reached).1.2)).
Proof.
  split.
  - intros r1 r2. apply (select_loop_partitioned records g DECADE_TARGETS).
  - intros decades dt.
    assert (select_loop records g (decades ++ [dt])
            = select_step records (select_loop records g decades) dt) as ->.
    { unfold select_loop. by rewrite foldl_app. }
    destruct (select_step_shape records (select_loop records g decades) dt)
      as (chunk & E & Hc & _ & Hnew & _).
    exists chunk. split_and!; [done| |].
    + intros r Hr. pose proof (Hc r Hr) as [[? ?] _]%list_elem_of_filter.
      split_and!; [done|done|by apply Hnew].
    + apply (select_loop_partitioned records g decades).
Qed.

(** C4. For each decade of the targets, the rows selected for the decade
    are at most its quota, and exactly its quota when its pool, the rows
    of the decade not yet used when the decade is reached, has at least
    as many rows: they are min(pool size, quota) rows. *)
Theorem decade_quota_met (g : rng_state) (records : list Track)
    (before after : list (Z * Z)) (d t : Z) :
  DECADE_TARGETS = before ++ (d, t) :: after →
  len (filter (λ r : Track, decade r = d) (select_spotify_subset g records).1)
    ≤ t ∧
  (t ≤ len (decade_bucket records (select_loop records g before).1.2 d) →
   len (filter (λ r : Track, decade r = d) (select_spotify_subset g records).1)
     = t) ∧
  len (filter (λ r : Track, decade r = d) (select_spotify_subset g records).1)
    = Z.min (len (decade_bucket records (select_loop records g before).1.2 d)) t.
Proof.
  intros Hsplit.
  assert (0 < t) as Ht.
  { apply (DECADE_TARGETS_positive d). rewrite Hsplit.
    apply elem_of_app. right. apply list_elem_of_here. }
  pose proof DECADE_TARGETS_NoDup as Hnd. rewrite Hsplit in Hnd.
  rewrite fmap_app, fmap_cons in Hnd. cbn [fst] in Hnd.
  apply NoDup_app in Hnd as (_ & Hbefore & [Hafter _]%NoDup_cons).
  assert (len (filter (λ r : Track, decade r = d)
                 (select_spotify_subset g records).1)
          = Z.min (len (decade_bucket records
                          (select_loop records g before).1.2 d)) t) as Hlen.
  { unfold select_spotify_subset. cbn [fst]. rewrite Hsplit.
    unfold select_loop at 1. rewrite foldl_app. cbn [foldl].
    fold (select_loop records g before).
    destruct (select_fold_shape records before ([], ∅, g))
      as (e0 & E0 & Hd0 & _).
    fold (select_loop records g before) in E0. cbn [fst app] in E0.
    destruct (select_step_shape records (select_loop records g before) (d, t))
      as (chunk & E1 & Hc & _ & _ & Hlen). cbn [fst snd] in Hc, Hlen.
    destruct (select_fold_shape records after
                (select_step records (select_loop records g before) (d, t)))
      as (e2 & E2 & Hd2 & _).
    rewrite E2, E1, E0, !filter_app.
    rewrite (filter_none _ e0), (filter_all _ chunk), (filter_none _ e2).
    - rewrite app_nil_r. cbn [app]. apply Hlen. lia.
    - intros r Hr Heq. apply Hafter. rewrite <- Heq. by apply Hd2.
    - intros r Hr. by apply Hc, list_elem_of_filter in Hr as [[? _] _].
    - intros r Hr Heq. apply (Hbefore d); [|apply list_elem_of_here].
      rewrite <- Heq. by apply Hd0. }
  rewrite Hlen. lia.
Qed.

End selection_claims.

Lemma decades_strictly_partitioned_witness :
  track_id <$> (raw <$> (select_spotify_subset (rng_seed 42) two_decades).1)
    = ["a"; "b"; "c"] ∧
  ∀ r1 r2 : Track,
    r1 ∈ (select_spotify_subset (rng_seed 42) two_decades).1 →
    r2 ∈ (select_spotify_subset (rng_seed 42) two_decades).1 →
    decade r1 ≠ decade r2 → track_id r1 ≠ track_id r2.
Proof.
  split; [by vm_compute|].
  apply (decades_strictly_partitioned (H := RotatingRandom)).
Defined.

Lemma decade_quota_met_witness :
  len (filter (λ r : Track, decade r = 1970)
         (select_spotify_subset (rng_seed 42) two_decades).1) ≤ 350.
Proof.
  apply (decade_quota_met (H := RotatingRandom) (rng_seed 42) two_decades
           [(1960, 150)] [(1980, 400); (1990, 500); (2000, 600);
                          (2010, 800); (2020, 100)] 1970 350).
  reflexivity.
Defined.

(** * Properties of the merge *)


Section merge_facts.
Context `{RandomSource} `{FloatOps}.

Lemma merge_fold_inv (curated : list Entry)
    (st : list Entry * Z * gset (string * string)) :
  ∃ kept : list Entry,
    (foldl merge_step st curated).1.1 = st.1.1 ++ kept ∧
    (foldl merge_step st curated).1.2 + len kept = st.1.2 + len curated ∧
    (foldl merge_step st curated).2
      = list_to_set (dedup_key <$> kept) ∪ st.2 ∧
    NoDup (dedup_key <$> kept) ∧
    (∀ e : Entry, e ∈ kept → dedup_key e ∉ st.2) ∧
    kept `sublist_of` curated ∧
    (∀ e : Entry, e ∈ curated →
       dedup_key e ∈ (foldl merge_step st curated).2).
Proof.
  revert st. induction curated as [|e curated IH]; intros [[m s] l]; cbn [foldl].
  { exists []. cbn [fst snd]. rewrite app_nil_r. split_and!; try done.
    - set_solver.
    - constructor.
    - by intros ? ?%elem_of_nil.
    - by intros ? ?%elem_of_nil. }
  destruct (decide (dedup_key e ∈ l)) as [Hin|Hnot].
  - assert (merge_step (m, s, l) e = (m, s + 1, l)) as ->.
    { unfold merge_step. by rewrite bool_decide_eq_true_2. }
    destruct (IH (m, s + 1, l)) as (kept & E & Hc & Hl & Hnd & Hfresh & Hsub & Hall).
    exists kept. cbn [fst snd] in *. split_and!; try done.
    + simpl length. lia.
    + by apply sublist_cons.
    + intros e' [->|He']%elem_of_cons; [|by apply Hall].
      rewrite Hl. set_solver.
  - assert (merge_step (m, s, l) e = (m ++ [e], s, {[dedup_key e]} ∪ l)) as ->.
    { unfold merge_step. by rewrite bool_decide_eq_false_2. }
    destruct (IH (m ++ [e], s, {[dedup_key e]} ∪ l))
      as (kept & E & Hc & Hl & Hnd & Hfresh & Hsub & Hall).
    exists (e :: kept). cbn [fst snd] in *. split_and!.
    + by rewrite E, <- app_assoc.
    + simpl length. lia.
    + rewrite Hl. csimpl. set_solver.
    + csimpl. apply NoDup_cons. split; [|done].
      intros (e' & Heq & He')%list_elem_of_fmap.
      apply (Hfresh e' He'). rewrite <- Heq. set_solver.
    + intros e' [->|He']%elem_of_cons; [done|].
      specialize (Hfresh e' He'). set_solver.
    + by apply sublist_skip.
    + intros e' [->|He']%elem_of_cons; [|by apply Hall].
      rewrite Hl. set_solver.
Qed.

Lemma backfill_fold_None (rows : list Track) :
  foldl backfill_step None rows = None.
Proof. induction rows as [|row rows IH]; [done|]. simpl. apply IH. Qed.

Lemma backfill_fold_inv (rows : list Track)
    (combined : list Entry) (lookup : gset (string * string))
    (st' : list Entry * gset (string * string)) :
  foldl backfill_step (Some (combined, lookup)) rows = Some st' →
  ∃ extra : list Entry,
    st'.1 = combined ++ extra ∧
    Forall2 (λ (row : Track) e, spotify_row_to_entry row = Some e) rows extra.
Proof.
  revert combined lookup. induction rows as [|row rows IH];
    intros combined lookup; cbn [foldl].
  { intros [= <-]. exists []. by rewrite app_nil_r. }
  unfold backfill_step at 2. cbn [mbind option_bind fst snd].
  destruct (spotify_row_to_entry row) as [e|] eqn:He; cbn [mbind option_bind].
  - intros (extra & -> & Hall)%IH. exists (e :: extra).
    split; [by rewrite <- app_assoc|]. by constructor.
  - by rewrite backfill_fold_None.
Qed.

Lemma entry_key_row_key (row : Track) (e : Entry) :
  spotify_row_to_entry row = Some e → dedup_key e = row_key row.
Proof.
  intros (Ht & Ha & _)%spotify_row_to_entry_inv.
  unfold dedup_key, row_key. by rewrite Ht, Ha.
Qed.

Lemma backfill_inv (g : rng_state) (records : list Track)
    (lookup : gset (string * string)) (combined combined' : list Entry) :
  backfill g records lookup combined = Some combined' →
  ∃ extra : list Entry,
    combined' = combined ++ extra ∧
    (∀ e : Entry, e ∈ extra →
       source e = SPOTIFY_SOURCE ∧ (dedup_key e ∉ lookup) ∧
       ∃ row : Track, row ∈ records ∧ spotify_row_to_entry row = Some e) ∧
    len extra = Z.max 0 (Z.min (GLOBAL_TARGET - len combined)
                               (len (backfill_pool records lookup))).
Proof.
  unfold backfill. destruct (Z.ltb_spec (len combined) GLOBAL_TARGET) as [Hlt|Hge].
  - intros Hb. apply fmap_Some in Hb as (st' & Hfold & ->).
    apply backfill_fold_inv in Hfold as (extra & -> & Hall).
    exists extra. split_and!; [done| |].
    + intros e He. apply list_elem_of_lookup_1 in He as [i Hi].
      destruct (Forall2_lookup_r _ _ _ _ _ Hall Hi) as (row & Hrow & Hentry).
      apply list_elem_of_lookup_2, slice_to_subseteq in Hrow.
      rewrite (rng_shuffle_perm _ g (backfill_pool records lookup)) in Hrow.
      apply list_elem_of_filter in Hrow as [Hkey Hrec].
      split_and!.
      * by apply spotify_row_to_entry_inv in Hentry as (_ & _ & ? & _).
      * by rewrite (entry_key_row_key row e Hentry).
      * by exists row.
    + rewrite <- (Forall2_length _ _ _ Hall), slice_to_length by lia.
      rewrite (Permutation_length
                 (rng_shuffle_perm _ g (backfill_pool records lookup))). lia.
  - intros [= <-]. exists []. rewrite app_nil_r. split_and!; [done| |].
    + by intros ? ?%elem_of_nil.
    + simpl length. lia.
Qed.

(** what [merge_catalog] returns *)
Lemma merge_catalog_inv (g : rng_state) (records : list Track)
    (spotify_entries curated combined : list Entry) (skipped : Z) :
  merge_catalog g records spotify_entries curated = Some (combined, skipped) →
  ∃ kept extra : list Entry,
    combined = spotify_entries ++ kept ++ extra ∧
    kept `sublist_of` curated ∧
    skipped + len kept = len curated ∧
    NoDup (dedup_key <$> kept) ∧
    (∀ e : Entry, e ∈ kept → dedup_key e ∉ dedup_key <$> spotify_entries) ∧
    (∀ e : Entry, e ∈ curated →
       dedup_key e ∈ dedup_key <$> (spotify_entries ++ kept)) ∧
    (∀ e : Entry, e ∈ extra →
       source e = SPOTIFY_SOURCE ∧
       (dedup_key e ∉ dedup_key <$> (spotify_entries ++ kept)) ∧
       ∃ row : Track, row ∈ records ∧ spotify_row_to_entry row = Some e) ∧
    len extra =
      Z.max 0 (Z.min (GLOBAL_TARGET - len (spotify_entries ++ kept))
                 (len (backfill_pool records
                         (list_to_set
                            (dedup_key <$> (spotify_entries ++ kept)))))).
Proof.
  unfold merge_catalog. intros Hm.
  apply bind_Some in Hm as (combined' & Hback & [= <- <-]).
  destruct (merge_fold_inv curated
              ([], 0, list_to_set (dedup_key <$> spotify_entries)))
    as (kept & E & Hc & Hl & Hnd & Hfresh & Hsub & Hall).
  cbn [fst snd app] in *.
  assert ((foldl merge_step
             ([], 0, list_to_set (dedup_key <$> spotify_entries)) curated).2
          = list_to_set (dedup_key <$> (spotify_entries ++ kept))) as Hkeys.
  { rewrite Hl, fmap_app. set_solver. }
  rewrite E, Hkeys in Hback.
  apply backfill_inv in Hback as (extra & -> & Hextra & Hlen).
  exists kept, extra. split_and!.
  - by rewrite <- app_assoc.
  - done.
  - lia.
  - done.
  - intros e He Hin. apply (Hfresh e He). by apply elem_of_list_to_set.
  - intros e He. apply (elem_of_list_to_set (C := gset (string * string))).
    rewrite <- Hkeys. by apply Hall.
  - intros e He. destruct (Hextra e He) as (? & Hn & ?). split_and!; [done| |done].
    intros Hin. apply Hn. by apply elem_of_list_to_set.
  - done.
Qed.

End merge_facts.

(** * The claims on the merged catalog and on the run *)

Section run_claims.
Context `{RandomSource} `{FloatOps}.

Lemma main_finished_inv (root now : string) (w w' : World) :
  main root now w = (w', Finished) →
  ∃ (rows : list Row) (mrows : list ManualRow)
    (spotify_entries curated combined : list Entry) (skipped : Z),
    raw_dataset w = Some rows ∧ manual_songs w = Some mrows ∧
    mapM spotify_row_to_entry
         (select_spotify_subset (rng_seed 42) (load_spotify_records rows)).1
      = Some spotify_entries ∧
    load_manual_french_songs mrows = Some curated ∧
    merge_catalog
      (select_spotify_subset (rng_seed 42) (load_spotify_records rows)).2
      (load_spotify_records rows) spotify_entries curated
      = Some (combined, skipped) ∧
    catalog w' =
      Some {| metadata :=
                build_metadata now skipped (stable_sort sort_key_leb combined);
              songs := stable_sort sort_key_leb combined |}.
Proof.
  unfold main. intros Hm.
  repeat (case_match; try discriminate).
  simplify_eq. cbn [catalog log write_catalog manual_songs] in *.
  eexists _, _, _, _, _, _. split_and!; try done; eauto.
Qed.


(** C2, as the code has it. Two runs on the same files, with the same
    seed, end the same way, leave the same trace and write the same
    catalog but for the generation timestamp, which is the reading of the
    clock; with the same reading of the clock the runs are identical. *)
Theorem catalog_identical_but_timestamp (root now1 now2 : string) (w : World) :
  (main root now1 w).2 = (main root now2 w).2 ∧
  trace (main root now1 w).1 = trace (main root now2 w).1 ∧
  without_timestamp <$> catalog (main root now1 w).1
    = without_timestamp <$> catalog (main root now2 w).1 ∧
  ((main root now1 w).2 = Finished →
   (generatedAt ∘ metadata) <$> catalog (main root now1 w).1
     = Some (now1 +:+ "Z")) ∧
  (now1 = now2 → main root now1 w = main root now2 w).
Proof.
  split_and!; [| | | |by intros ->].
  all: unfold main; repeat case_match; simplify_eq; try done.
Qed.

(** What a run does when an input file is missing. Without the dataset
    the run exits with a message before it reads anything. Without the
    curated file the run fails as well, but only after the dataset has
    been read, sampled and enriched. Either way the exit status is 1 and
    no catalog is written. *)
Theorem missing_input_is_fatal (root now : string) (w : World) :
  (raw_dataset w = None →
   main root now w
     = (log [Exists RAW_DATA false] w,
        Raised (SystemExit ("Missing dataset: " +:+ abs_path root RAW_DATA)))) ∧
  (raw_dataset w = None ∨ manual_songs w = None →
   exit_status (main root now w).2 = 1 ∧
   catalog (main root now w).1 = catalog w ∧
   Written OUTPUT_PATH ∉ drop (length (trace w)) (trace (main root now w).1)) ∧
  (raw_dataset w ≠ None → manual_songs w = None →
   ((main root now w).2 = Raised (FileNotFoundError MANUAL_FR_FILE) ∧
    trace (main root now w).1
      = trace w ++ [Exists RAW_DATA true; OpenedForRead RAW_DATA;
                    OpenFailed MANUAL_FR_FILE]) ∨
   ((main root now w).2 = Raised ValueError ∧
    trace (main root now w).1
      = trace w ++ [Exists RAW_DATA true; OpenedForRead RAW_DATA])).
Proof.
  split_and!.
  - intros Hraw. unfold main. by rewrite Hraw.
  - intros Hmiss. unfold main.
    destruct (raw_dataset w) as [rows|] eqn:Hraw.
    + destruct Hmiss as [|Hman]; [done|].
      cbn [manual_songs log]. rewrite Hman.
      case_match; cbn [fst snd exit_status catalog log trace];
        (split_and!; [done|done|]);
        rewrite <- ?app_assoc, drop_app_length; set_solver.
    + cbn [fst snd exit_status catalog log trace]. split_and!; [done|done|].
      rewrite drop_app_length. set_solver.
  - intros Hraw Hman. unfold main.
    destruct (raw_dataset w) as [rows|]; [|done].
    cbn [manual_songs log]. rewrite Hman.
    case_match; cbn [fst snd trace log]; [left|right];
      by rewrite <- ?app_assoc.
Qed.

End run_claims.

Lemma both_files_finished :
  main "/repo" noon both_files = ((main "/repo" noon both_files).1, Finished).
Proof.
  assert ((main "/repo" noon both_files).2 = Finished) as Hout by by vm_compute.
  destruct (main "/repo" noon both_files) as [w' o]. simpl in *. by subst.
Qed.



Lemma catalog_identical_but_timestamp_witness :
  main "/repo" noon both_files = main "/repo" noon both_files ∧
  (generatedAt ∘ metadata) <$> catalog (main "/repo" noon both_files).1
    = Some "2026-01-01T12:00:00Z".
Proof.
  destruct (catalog_identical_but_timestamp (H := RotatingRandom)
              (H0 := IntegerFloats) "/repo" noon noon both_files)
    as (_ & _ & _ & Hstamp & Hsame).
  split; [by apply Hsame|]. apply Hstamp. by vm_compute.
Defined.

(** C2, as stated, fails: two runs on the same files and with the same
    seed, one second apart, write catalogs that differ. *)
Lemma timestamp_counterexample :
  catalog (main "/repo" noon both_files).1
    ≠ catalog (main "/repo" after_noon both_files).1.
Proof.
  intros Heq. apply (f_equal (fmap (generatedAt ∘ metadata))) in Heq.
  vm_compute in Heq. discriminate.
Qed.

Lemma missing_input_is_fatal_witness :
  exit_status (main "/repo" noon no_curated_file).2 = 1 ∧
  catalog (main "/repo" noon no_curated_file).1 = None.
Proof.
  destruct (missing_input_is_fatal (H := RotatingRandom) (H0 := IntegerFloats)
              "/repo" noon no_curated_file) as (_ & Hfatal & _).
  destruct Hfatal as (Hexit & Hcat & _); [right; reflexivity|].
  split; [exact Hexit|exact Hcat].
Defined.

(** C8. The code at the failing input: the curated file is absent and
    the dataset is present. The run fails, but not before any processing:
    by the time [FileNotFoundError] is raised the dataset has been read,
    and a row that cannot be enriched makes the run fail on that row
    without the curated file being looked for. *)
Lemma curated_file_missing_fails_late :
  manual_songs no_curated_file = None ∧
  (main "/repo" noon no_curated_file).2
    = Raised (FileNotFoundError MANUAL_FR_FILE) ∧
  trace (main "/repo" noon no_curated_file).1
    = [Exists RAW_DATA true; OpenedForRead RAW_DATA;
       OpenFailed MANUAL_FR_FILE] ∧
  manual_songs no_curated_file_bad_row = None ∧
  (main "/repo" noon no_curated_file_bad_row).2 = Raised ValueError.
Proof. split_and!; by vm_compute. Qed.

(** * Further properties of the loader *)

Lemma load_step_spec (st : list Track * gset string) (row : Row) :
  (load_step st row = st ∧
   ((track_id row ∈ st.2) ∨ ∀ year, ¬ accepted row year)) ∨
  (∃ year, (track_id row ∉ st.2) ∧ accepted row year ∧
     load_step st row
       = (st.1 ++ [track_of row year], {[track_id row]} ∪ st.2)).
Proof.
  destruct st as [records seen]. unfold load_step, accepted. cbn [fst snd].
  case_bool_decide as Hseen; [by left; split; [|left]|].
  destruct (parse_year (track_album_release_date row)) as [year|] eqn:Hy.
  2:{ left. split; [done|]. right. by intros y [? _]. }
  destruct (Z.ltb_spec year 1960).
  { left. split; [done|]. right. intros y ([= <-] & ? & _). lia. }
  destruct (Z.ltb_spec (year / 10 * 10) 1960);
    [Z.div_mod_to_equations; lia|]. cbn [orb].
  unfold dict_has. case_bool_decide as Hdec; cbn [negb].
  2:{ left. split; [done|]. right. by intros y ([= <-] & _ & ? & _). }
  destruct (is_soundtrack row) eqn:Hs.
  { left. split; [done|]. right. by intros y ([= <-] & _ & _ & ?). }
  right. exists year. split_and!; try done.
Qed.


(** the state of the loader: the identifiers seen are those of the
    records kept, each once, and the records are rows of the file in
    the order of the file *)
Lemma load_fold_state (rows : list Row) :
  (∀ id, id ∈ (foldl load_step ([], ∅) rows).2
         ↔ id ∈ track_ids (foldl load_step ([], ∅) rows).1) ∧
  NoDup (track_ids (foldl load_step ([], ∅) rows).1) ∧
  raw <$> (foldl load_step ([], ∅) rows).1 `sublist_of` rows.
Proof.
  induction rows as [|row rows (Hseen & Hnd & Hsub)] using rev_ind.
  { cbn. split_and!; [set_solver|constructor|done]. }
  rewrite foldl_app. cbn [foldl].
  set (st := foldl load_step ([], ∅) rows) in *.
  destruct (load_step_spec st row) as [[-> _]|(y & Hnew & _ & ->)].
  - split_and!; [done|done|by apply sublist_inserts_r].
  - cbn [fst snd]. unfold track_ids in *. rewrite !fmap_app. csimpl.
    split_and!.
    + intros id. rewrite elem_of_union, elem_of_app, Hseen.
      rewrite elem_of_singleton, list_elem_of_singleton. tauto.
    + apply NoDup_app. split_and!; [done| |apply NoDup_singleton].
      intros id Hid ->%list_elem_of_singleton. by apply Hnew, Hseen.
    + by apply sublist_app.
Qed.

(** The loader keeps a row of each accepted identifier, once, in the order
    of the file: the identifiers of the records are pairwise different and
    the records are a subsequence of the rows. *)
Theorem loaded_ids_unique_in_file_order (rows : list Row) :
  NoDup (track_ids (load_spotify_records rows)) ∧
  raw <$> load_spotify_records rows `sublist_of` rows.
Proof.
  destruct (load_fold_state rows) as (_ & Hnd & Hsub). by split.
Qed.



Lemma track_of_eta (t : Track) :
  decade t = release_year t / 10 * 10 → track_of (raw t) (release_year t) = t.
Proof. destruct t as [r y d]. unfold track_of. simpl. by intros ->. Qed.

Lemma loaded_from_accepted (rows : list Row) (t : Track) :
  loaded_from rows t → accepted (raw t) (release_year t).
Proof.
  intros (_ & Hp & Hge & Hd & Hdt & Hs). split_and!; try done.
  by rewrite <- Hd.
Qed.

Lemma load_fold_tracks (ts : list Track) (st : list Track * gset string) :
  (∀ t : Track, t ∈ ts →
     accepted (raw t) (release_year t) ∧ decade t = release_year t / 10 * 10) →
  NoDup (track_ids ts) →
  (∀ t : Track, t ∈ ts → track_id t ∉ st.2) →
  (foldl load_step st (raw <$> ts)).1 = st.1 ++ ts.
Proof.
  revert st. induction ts as [|t ts IH]; intros st Hwf Hnd Hfresh; csimpl.
  { by rewrite app_nil_r. }
  unfold track_ids in Hnd. csimpl in Hnd. apply NoDup_cons in Hnd as [Ht Hnd].
  destruct (Hwf t (list_elem_of_here _ _)) as [Hacc Hdec].
  destruct (load_step_spec st (raw t)) as [[_ Hwhy]|(y & _ & Hacc' & ->)].
  - destruct Hwhy as [Hin|Hno]; [|by destruct (Hno (release_year t))].
    by destruct (Hfresh t (list_elem_of_here _ _)).
  - assert (y = release_year t) as -> by (destruct Hacc, Hacc'; congruence).
    rewrite IH; cbn [fst snd].
    + by rewrite track_of_eta, <- app_assoc.
    + intros ? ?. by apply Hwf, list_elem_of_further.
    + done.
    + intros t' Ht' [Heq%elem_of_singleton|Hin]%elem_of_union.
      * apply Ht. rewrite <- Heq. apply list_elem_of_fmap. by exists t'.
      * by apply (Hfresh t' (list_elem_of_further _ _ _ Ht')).
Qed.

(** Loading is idempotent: the rows of the loaded records, loaded again,
    give the same records. *)
Theorem loading_is_idempotent (rows : list Row) :
  load_spotify_records (raw <$> load_spotify_records rows)
    = load_spotify_records rows.
Proof.
  unfold load_spotify_records at 1.
  rewrite load_fold_tracks; [done| | |set_solver].
  - intros t Ht. pose proof (load_spotify_records_kept rows) as Hk.
    rewrite Forall_forall in Hk. specialize (Hk t Ht). split.
    + by eapply loaded_from_accepted.
    + by destruct Hk as (_ & _ & _ & ? & _).
  - apply (load_fold_state rows).
Qed.

(** Every loaded record is a row of the file with a year from 1960 to
    2029, tagged with that year and with its decade, the year rounded down
    to a multiple of ten, which is one of the seven decades of the
    targets. *)
Theorem loaded_records_are_tagged (rows : list Row) (r : Track) :
  r ∈ load_spotify_records rows →
  raw r ∈ rows ∧
  r = track_of (raw r) (release_year r) ∧
  1960 ≤ release_year r ≤ 2029 ∧
  decade r = release_year r - release_year r `mod` 10 ∧
  decade r ∈ [1960; 1970; 1980; 1990; 2000; 2010; 2020].
Proof.
  intros Hr. pose proof (load_spotify_records_kept rows) as Hk.
  rewrite Forall_forall in Hk.
  destruct (Hk r Hr) as (Hraw & _ & Hge & Hd & Hdt & _).
  assert (decade r ≤ 2020) as Hle.
  { revert Hdt. unfold DECADE_TARGETS. csimpl.
    rewrite !elem_of_cons, elem_of_nil. lia. }
  split_and!; try done.
  - by rewrite track_of_eta.
  - rewrite Hd in Hle. Z.div_mod_to_equations. lia.
  - rewrite Hd. Z.div_mod_to_equations. lia.
Qed.

Lemma loaded_records_are_tagged_witness :
  1960 ≤ release_year (track_of row_1999 1999) ≤ 2029 ∧
  decade (track_of row_1999 1999) = 1990.
Proof.
  destruct (loaded_records_are_tagged [row_1957; row_1999]
              (track_of row_1999 1999)) as (_ & _ & Hy & Hd & _).
  { vm_compute. apply list_elem_of_here. }
  split; [exact Hy|]. rewrite Hd. reflexivity.
Defined.

(** * Further properties of the sampler *)

(** The grouping partitions the bucket by genre: one group for each genre
    of the bucket, holding the rows of that genre in the order of the
    bucket. *)
Theorem grouping_partitions_bucket (bucket : list Track) :
  NoDup (group_by_genre bucket).*1 ∧
  (∀ genre : string,
     genre ∈ (group_by_genre bucket).*1
     ↔ ∃ r : Track, r ∈ bucket ∧ playlist_genre r = genre) ∧
  (∀ (genre : string) (items : list Track),
     (genre, items) ∈ group_by_genre bucket →
     items ≠ [] ∧
     items = filter (λ r : Track, playlist_genre r = genre) bucket) ∧
  concat (group_by_genre bucket).*2 ≡ₚ bucket.
Proof.
  destruct (group_by_genre_inv bucket) as (Hnd & Hne & Hperm).
  destruct (group_by_genre_items bucket) as [Hitems Hgenres].
  split_and!; [done| | |done].
  - intros genre. split.
    + intros ([k items] & -> & Hkv)%list_elem_of_fmap.
      pose proof (Hne _ Hkv) as Hnonempty. pose proof (Hitems _ Hkv) as Hf.
      cbn [fst snd] in *. destruct items as [|r items]; [done|].
      assert (r ∈ filter (λ r : Track, playlist_genre r = k) bucket) as Hr
        by (rewrite <- Hf; apply list_elem_of_here).
      apply list_elem_of_filter in Hr as [? ?]. by exists r.
    + intros (r & Hr & <-). by apply Hgenres.
  - intros genre items Hkv. split; [apply (Hne _ Hkv)|apply (Hitems _ Hkv)].
Qed.

Section sampler_properties.
Context `{RandomSource}.

Lemma draw_step_submseteq (allocs : list (string * Z))
    (st : list Track * rng_state) (kv : string * list Track) :
  ∃ drawn : list Track,
    (draw_step allocs st kv).1 = st.1 ++ drawn ∧ drawn ⊆+ kv.2.
Proof.
  unfold draw_step. fold (alloc_at allocs kv.1).
  destruct (Z.leb_spec (alloc_at allocs kv.1) 0).
  { exists []. rewrite app_nil_r. split; [done|apply submseteq_nil_l]. }
  destruct (Z.leb_spec (len kv.2) (alloc_at allocs kv.1)); cbn [fst snd].
  { by exists kv.2. }
  eexists. split; [done|]. apply rng_sample_submseteq. lia.
Qed.

Lemma draw_fold_submseteq (allocs : list (string * Z))
    (groups : list (string * list Track)) (st : list Track * rng_state) :
  ∃ drawn : list Track,
    (foldl (draw_step allocs) st groups).1 = st.1 ++ drawn ∧
    drawn ⊆+ concat groups.*2.
Proof.
  revert st. induction groups as [|kv groups IH]; intros st; cbn [foldl].
  { exists []. by rewrite app_nil_r. }
  destruct (draw_step_submseteq allocs st kv) as (d1 & E1 & Hsub1).
  destruct (IH (draw_step allocs st kv)) as (d2 & E2 & Hsub2).
  exists (d1 ++ d2). split; [by rewrite E2, E1, app_assoc|].
  csimpl. by apply submseteq_app.
Qed.

Lemma draw_fold_hits (allocs : list (string * Z))
    (groups : list (string * list Track)) (st : list Track * rng_state)
    (kv : string * list Track) :
  kv ∈ groups → 1 ≤ alloc_at allocs kv.1 ≤ len kv.2 →
  ∃ x : Track, x ∈ (foldl (draw_step allocs) st groups).1 ∧ x ∈ kv.2.
Proof.
  revert st. induction groups as [|kv0 groups IH]; intros st Hkv Hb;
    [by apply elem_of_nil in Hkv|].
  cbn [foldl]. apply elem_of_cons in Hkv as [->|Hkv]; [|by apply IH].
  destruct (draw_step_shape allocs st kv0) as (d1 & E1 & Hsub1 & Hlen1).
  destruct (draw_fold_shape allocs groups (draw_step allocs st kv0))
    as (d2 & E2 & _).
  destruct d1 as [|x d1]; [specialize (Hlen1 Hb); simpl in Hlen1; lia|].
  exists x. split; [|apply Hsub1, list_elem_of_here].
  rewrite E2, E1. apply elem_of_app. left. apply elem_of_app. right.
  apply list_elem_of_here.
Qed.

(** The sample is drawn without replacement: it is a sub-multiset of the
    bucket. A bucket within the target is returned whole and the random
    source is left as it is; of a larger bucket the sample has
    max(target, number of genres) rows. *)
Theorem sample_is_part_of_bucket (g : rng_state) (bucket : list Track)
    (target : Z) :
  (stratified_sample g bucket target).1 ⊆+ bucket ∧
  (len bucket ≤ target → stratified_sample g bucket target = (bucket, g)) ∧
  (target < len bucket →
   len (stratified_sample g bucket target).1
     = Z.max target (len (group_by_genre bucket))).
Proof.
  split_and!.
  - unfold stratified_sample. case_match; [done|].
    destruct (draw_fold_submseteq (allocation_plan bucket target)
                (group_by_genre bucket) ([], g)) as (drawn & -> & Hsub).
    cbn [fst app]. etrans; [exact Hsub|].
    apply Permutation_submseteq, group_by_genre_inv.
  - apply stratified_sample_small.
  - apply stratified_sample_length.
Qed.

(** Of a bucket larger than the target every genre is sampled: for each
    row of the bucket the sample has a row of the same genre. The same
    holds for a bucket returned whole. *)
Theorem every_genre_is_sampled (g : rng_state) (bucket : list Track)
    (target : Z) (r : Track) :
  r ∈ bucket →
  ∃ r' : Track, r' ∈ (stratified_sample g bucket target).1 ∧
                playlist_genre r' = playlist_genre r.
Proof.
  intros Hr. destruct (Z.le_gt_cases (len bucket) target) as [Hle|Hgt].
  { rewrite stratified_sample_small by done. by exists r. }
  destruct (group_by_genre_items bucket) as [Hitems Hgenres].
  pose proof (Hgenres r Hr) as ([k items] & Hk & Hkv)%list_elem_of_fmap.
  cbn [fst] in Hk. subst k.
  destruct (allocation_plan_ok bucket target Hgt) as [[_ Hb] _].
  unfold stratified_sample. rewrite (proj2 (Z.leb_gt _ _) Hgt).
  destruct (draw_fold_hits (allocation_plan bucket target)
              (group_by_genre bucket) ([], g) _ Hkv (Hb _ Hkv))
    as (x & Hx & Hin).
  exists x. split; [done|]. rewrite (Hitems _ Hkv) in Hin.
  by apply list_elem_of_filter in Hin as [? _].
Qed.

Lemma backfill_after_sample (g : rng_state) (bucket : list Track)
    (target : Z) :
  backfill_picks (stratified_sample g bucket target).2 bucket
                 (stratified_sample g bucket target).1 target
    = stratified_sample g bucket target.
Proof.
  destruct (Z.le_gt_cases (len bucket) target) as [Hle|Hgt].
  - rewrite stratified_sample_small by done. cbn [fst snd].
    apply backfill_picks_whole.
  - pose proof (stratified_sample_length g bucket target Hgt) as Hlen.
    rewrite backfill_picks_enough by lia.
    by destruct (stratified_sample g bucket target).
Qed.

(** The backfill of [select_spotify_subset] never draws: whatever the
    bucket and the target, the sample is already the whole bucket or has
    at least [target] rows, and it is left as it is, with the random
    source. *)
Theorem backfill_never_draws (g : rng_state) (bucket : list Track)
    (target : Z) :
  backfill_picks (stratified_sample g bucket target).2 bucket
                 (stratified_sample g bucket target).1 target
    = stratified_sample g bucket target.
Proof. apply backfill_after_sample. Qed.

Lemma stratified_sample_submseteq (g : rng_state) (bucket : list Track)
    (target : Z) : (stratified_sample g bucket target).1 ⊆+ bucket.
Proof.
  unfold stratified_sample. case_match; [done|].
  destruct (draw_fold_submseteq (allocation_plan bucket target)
              (group_by_genre bucket) ([], g)) as (drawn & -> & Hsub).
  cbn [fst app]. etrans; [exact Hsub|].
  apply Permutation_submseteq, group_by_genre_inv.
Qed.

End sampler_properties.

Lemma every_genre_is_sampled_witness :
  ∃ r' : Track,
    r' ∈ (stratified_sample (rng_seed 42) four_genres 10).1 ∧
    playlist_genre r' = "edm".
Proof.
  apply (every_genre_is_sampled (H := RotatingRandom) (rng_seed 42)
           four_genres 10 (genre_track "edm" "e")).
  vm_compute. do 75 apply list_elem_of_further. apply list_elem_of_here.
Defined.

Lemma sample_is_part_of_bucket_witness :
  len (stratified_sample (rng_seed 42) four_genres 10).1 = 10.
Proof.
  destruct (sample_is_part_of_bucket (H := RotatingRandom) (rng_seed 42)
              four_genres 10) as (_ & _ & Hlen).
  rewrite Hlen by by vm_compute. by vm_compute.
Defined.

(** ** The closed form of the overflow branch *)




Lemma StronglySorted_weaken {A} (R S : A → A → Prop) (l : list A) :
  (∀ x y, R x y → S x y) → StronglySorted R l → StronglySorted S l.
Proof.
  intros HRS. induction 1 as [|x l Hl IH Hx]; constructor; [done|].
  eapply Forall_impl; [exact Hx|]. intros y. apply HRS.
Qed.




(** * Further properties of the selection by decade *)

Lemma NoDup_submseteq_inv {A} (l k : list A) : l ⊆+ k → NoDup k → NoDup l.
Proof.
  intros (k' & Hk)%submseteq_Permutation Hnd. rewrite Hk in Hnd.
  by apply NoDup_app in Hnd as (? & _).
Qed.

Lemma NoDup_fmap_eq {A B} (f : A → B) (l : list A) (x y : A) :
  NoDup (f <$> l) → x ∈ l → y ∈ l → f x = f y → x = y.
Proof.
  induction l as [|z l IH]; csimpl; [by intros _ ?%elem_of_nil|].
  intros [Hz Hnd]%NoDup_cons [->|Hx]%elem_of_cons [->|Hy]%elem_of_cons Heq.
  - done.
  - destruct Hz. rewrite Heq. apply list_elem_of_fmap. by exists y.
  - destruct Hz. rewrite <- Heq. apply list_elem_of_fmap. by exists x.
  - by apply IH.
Qed.

Lemma zsum_DECADE_TARGETS : zsum DECADE_TARGETS.*2 = 2900.
Proof. reflexivity. Qed.

Section selection_properties.
Context `{RandomSource}.

(** the iteration over a decade, without the backfill that never draws *)
Lemma select_step_eq (records : list Track)
    (st : list Track * gset string * rng_state) (dt : Z * Z) :
  select_step records st dt =
    if bool_decide (decade_bucket records st.1.2 dt.1 = []) then st
    else
      (st.1.1 ++ slice_to dt.2
         (stratified_sample st.2 (decade_bucket records st.1.2 dt.1) dt.2).1,
       ids_of (stratified_sample st.2
                 (decade_bucket records st.1.2 dt.1) dt.2).1 ∪ st.1.2,
       (stratified_sample st.2 (decade_bucket records st.1.2 dt.1) dt.2).2).
Proof.
  destruct st as [[selected used_ids] g]. unfold select_step. cbn [fst snd].
  destruct (decade_bucket records used_ids dt.1) as [|r0 bucket] eqn:Hb;
    [done|].
  rewrite bool_decide_eq_false_2 by done. by rewrite backfill_after_sample.
Qed.

Lemma select_step_chunk (records : list Track)
    (st : list Track * gset string * rng_state) (dt : Z * Z) :
  ∃ chunk : list Track,
    (select_step records st dt).1.1 = st.1.1 ++ chunk ∧
    chunk ⊆+ decade_bucket records st.1.2 dt.1 ∧
    (∀ r : Track, r ∈ chunk → track_id r ∈ (select_step records st dt).1.2) ∧
    (∀ id : string, id ∈ st.1.2 → id ∈ (select_step records st dt).1.2) ∧
    (0 ≤ dt.2 → len chunk ≤ dt.2).
Proof.
  rewrite select_step_eq. case_bool_decide as Hb.
  { exists []. rewrite app_nil_r. split_and!; try done.
    - apply submseteq_nil_l.
    - by intros ? ?%elem_of_nil. }
  cbn [fst snd]. eexists. split_and!; [done| | | |].
  - etrans; [|apply stratified_sample_submseteq].
    unfold slice_to. case_match; apply sublist_submseteq, sublist_take.
  - intros r Hr%slice_to_subseteq. apply elem_of_union. left.
    unfold ids_of. apply elem_of_list_to_set, list_elem_of_fmap. by exists r.
  - intros id Hid. apply elem_of_union. by right.
  - intros Ht. rewrite slice_to_length by done. lia.
Qed.

(** the selection so far: its identifiers are pairwise different and
    marked used, and its rows are records *)
Lemma select_fold_unique (records : list Track) (decades : list (Z * Z))
    (st : list Track * gset string * rng_state) :
  NoDup (track_ids records) →
  NoDup (track_ids st.1.1) →
  (∀ r : Track, r ∈ st.1.1 → track_id r ∈ st.1.2) →
  st.1.1 ⊆ records →
  NoDup (track_ids (foldl (select_step records) st decades).1.1) ∧
  (foldl (select_step records) st decades).1.1 ⊆ records.
Proof.
  intros Hrec. revert st.
  induction decades as [|dt decades IH]; intros st Hnd Hused Hsub;
    cbn [foldl]; [done|].
  destruct (select_step_chunk records st dt)
    as (chunk & E & Hc & Hnew & Hold & _).
  assert (chunk ⊆+ records) as Hcr.
  { etrans; [exact Hc|]. apply sublist_submseteq, sublist_filter. }
  apply IH.
  - rewrite E. unfold track_ids. rewrite fmap_app. apply NoDup_app.
    split_and!; [done| |].
    + intros id (r & -> & Hr)%list_elem_of_fmap
                (r' & Heq & Hr')%list_elem_of_fmap.
      eapply elem_of_submseteq in Hr'; [|exact Hc].
      apply list_elem_of_filter in Hr' as [[_ Hfresh] _].
      apply Hfresh. rewrite <- Heq. by apply Hused.
    + eapply NoDup_submseteq_inv; [|exact Hrec].
      unfold track_ids. by apply fmap_submseteq.
  - rewrite E. intros r [Hr|Hr]%elem_of_app; [by apply Hold, Hused|by apply Hnew].
  - rewrite E. intros r [Hr|Hr]%elem_of_app; [by apply Hsub|].
    by eapply elem_of_submseteq.
Qed.

Lemma select_fold_length (records : list Track) (decades : list (Z * Z))
    (st : list Track * gset string * rng_state) :
  Forall (λ dt, 0 ≤ dt.2) decades →
  len (foldl (select_step records) st decades).1.1
    ≤ len st.1.1 + zsum decades.*2.
Proof.
  revert st. induction decades as [|dt decades IH]; intros st Hpos;
    cbn [foldl]; csimpl; [lia|].
  apply Forall_cons in Hpos as [Hdt Hpos].
  destruct (select_step_chunk records st dt) as (chunk & E & _ & _ & _ & Hlen).
  etrans; [by apply IH|]. rewrite E, length_app, Nat2Z.inj_add.
  specialize (Hlen Hdt). lia.
Qed.

Lemma select_fold_subseteq (records : list Track) (decades : list (Z * Z))
    (st : list Track * gset string * rng_state) :
  st.1.1 ⊆ records → (foldl (select_step records) st decades).1.1 ⊆ records.
Proof.
  revert st. induction decades as [|dt decades IH]; intros st Hst;
    cbn [foldl]; [done|].
  apply IH. destruct (select_step_chunk records st dt) as (chunk & -> & Hc & _).
  intros r [?|Hr]%elem_of_app; [by apply Hst|].
  eapply elem_of_submseteq in Hr; [|exact Hc].
  by apply list_elem_of_filter in Hr as [_ ?].
Qed.

(** When the identifiers of the records are pairwise different, as the
    loader leaves them, no record is selected twice: the identifiers of
    the selection are pairwise different and the selection is a
    sub-multiset of the records. *)
Theorem selection_has_no_duplicates (g : rng_state) (records : list Track) :
  NoDup (track_ids records) →
  NoDup (track_ids (select_spotify_subset g records).1) ∧
  (select_spotify_subset g records).1 ⊆+ records.
Proof.
  intros Hrec.
  destruct (select_fold_unique records DECADE_TARGETS ([], ∅, g) Hrec)
    as [Hnd Hsub]; [constructor|by intros ? ?%elem_of_nil|
                    by intros ? ?%elem_of_nil|].
  split; [done|]. apply NoDup_submseteq; [|done].
  by apply NoDup_fmap_1 in Hnd.
Qed.

(** The selection never has more rows than the quotas allow: at most
    2900, and all of them records of a decade of the targets. *)
Theorem selection_within_total_quota (g : rng_state) (records : list Track) :
  len (select_spotify_subset g records).1 ≤ 2900 ∧
  (∀ r : Track, r ∈ (select_spotify_subset g records).1 →
     r ∈ records ∧ decade r ∈ DECADE_TARGETS.*1).
Proof.
  split.
  - rewrite <- zsum_DECADE_TARGETS.
    etrans; [apply (select_fold_length records DECADE_TARGETS ([], ∅, g))|done].
    apply Forall_forall. intros [d t] Hdt. cbn [snd].
    pose proof (DECADE_TARGETS_positive d t Hdt). lia.
  - intros r Hr. split.
    + revert r Hr.
      apply (select_fold_subseteq records DECADE_TARGETS ([], ∅, g)).
      by intros ? ?%elem_of_nil.
    + destruct (select_fold_shape records DECADE_TARGETS ([], ∅, g))
        as (extra & E & Hdec & _).
      apply Hdec. unfold select_spotify_subset, select_loop in Hr.
      cbn [fst] in Hr. rewrite E in Hr. exact Hr.
Qed.

End selection_properties.

Lemma filter_ext_in {A} (P Q : A → Prop) `{∀ x, Decision (P x)}
    `{∀ x, Decision (Q x)} (l : list A) :
  (∀ x, x ∈ l → P x ↔ Q x) → filter P l = filter Q l.
Proof.
  induction l as [|x l IH]; intros Hl; [done|].
  rewrite !filter_cons.
  pose proof (Hl x (list_elem_of_here _ _)) as Hx.
  rewrite IH by (intros ? ?; by apply Hl, list_elem_of_further).
  repeat case_decide; tauto.
Qed.

Section small_decades.
Context `{RandomSource}.

Lemma select_fold_small (records : list Track) (decades : list (Z * Z))
    (st : list Track * gset string * rng_state) :
  NoDup (track_ids records) →
  NoDup decades.*1 →
  Forall (λ dt, len (decade_rows records dt.1) ≤ dt.2) decades →
  (∀ id : string, id ∈ st.1.2 → ∃ r : Track, r ∈ st.1.1 ∧ track_id r = id) →
  (∀ r : Track, r ∈ st.1.1 → r ∈ records ∧ decade r ∉ decades.*1) →
  (foldl (select_step records) st decades).1.1
    = st.1.1 ++ concat ((λ dt, decade_rows records dt.1) <$> decades) ∧
  (foldl (select_step records) st decades).2 = st.2.
Proof.
  intros Hrec. revert st.
  induction decades as [|[d t] decades IH]; intros st Hnd Hsmall Hused Hsel;
    cbn [foldl]; csimpl.
  { by rewrite app_nil_r. }
  csimpl in Hnd. apply NoDup_cons in Hnd as [Hd Hnd].
  apply Forall_cons in Hsmall as [Hdt Hsmall]. cbn [fst snd] in Hdt.
  assert (decade_bucket records st.1.2 d = decade_rows records d) as Hbucket.
  { unfold decade_bucket, decade_rows. apply filter_ext_in.
    intros r Hr. split; [by intros [? _]|]. intros Hdec. split; [done|].
    intros (r' & Hr' & Hid)%Hused. destruct (Hsel r' Hr') as [Hin Hnot].
    assert (r' = r) as -> by by eapply (NoDup_fmap_eq _ records).
    apply Hnot. csimpl. rewrite Hdec. apply list_elem_of_here. }
  rewrite select_step_eq. cbn [fst snd]. rewrite Hbucket.
  case_bool_decide as Hempty.
  { rewrite Hempty. cbn [app]. apply IH; try done.
    intros r Hr. destruct (Hsel r Hr) as [? Hnot]. split; [done|].
    intros Hin. apply Hnot. csimpl. by apply list_elem_of_further. }
  rewrite stratified_sample_small by done. cbn [fst snd].
  assert (slice_to t (decade_rows records d) = decade_rows records d) as ->.
  { unfold slice_to. rewrite (proj2 (Z.leb_le 0 t)) by lia.
    apply take_ge. lia. }
  destruct (IH (st.1.1 ++ decade_rows records d,
                ids_of (decade_rows records d) ∪ st.1.2, st.2))
    as [E Hg]; try done.
  - cbn [fst snd]. intros id [Hid|Hid]%elem_of_union.
    + unfold ids_of in Hid.
      apply elem_of_list_to_set, list_elem_of_fmap in Hid as (r & -> & Hr).
      exists r. split; [|done]. apply elem_of_app. by right.
    + destruct (Hused id Hid) as (r & Hr & ?). exists r.
      split; [|done]. apply elem_of_app. by left.
  - cbn [fst snd]. intros r [Hr|Hr]%elem_of_app.
    + destruct (Hsel r Hr) as [? Hnot]. split; [done|].
      intros Hin. apply Hnot. csimpl. by apply list_elem_of_further.
    + apply list_elem_of_filter in Hr as [Hdec Hr]. split; [done|].
      by rewrite Hdec.
  - cbn [fst snd] in *. by rewrite E, <- app_assoc.
Qed.

(** When the identifiers of the records are pairwise different and no
    decade has more records than its quota, nothing is sampled: the
    selection is every record of a decade of the targets, decade after
    decade in the order of the targets, and the random source is left as
    it is. *)
Theorem selection_keeps_small_decades (g : rng_state) (records : list Track) :
  NoDup (track_ids records) →
  (∀ d t : Z, (d, t) ∈ DECADE_TARGETS → len (decade_rows records d) ≤ t) →
  select_spotify_subset g records
    = (concat ((λ dt, decade_rows records dt.1) <$> DECADE_TARGETS), g).
Proof.
  intros Hrec Hsmall.
  destruct (select_fold_small records DECADE_TARGETS ([], ∅, g) Hrec
              DECADE_TARGETS_NoDup) as [E Hg].
  - apply Forall_forall. intros [d t] Hdt. by apply Hsmall.
  - by intros id ?%elem_of_empty.
  - by intros r ?%elem_of_nil.
  - unfold select_spotify_subset, select_loop. by rewrite E, Hg.
Qed.

End small_decades.

Lemma selection_has_no_duplicates_witness :
  NoDup (track_ids
    (select_spotify_subset (rng_seed 42)
       (load_spotify_records small_dataset)).1).
Proof.
  apply (selection_has_no_duplicates (H := RotatingRandom)).
  apply (load_fold_state small_dataset).
Defined.

Lemma selection_within_total_quota_witness :
  len (select_spotify_subset (rng_seed 42)
         (load_spotify_records small_dataset)).1 ≤ 2900.
Proof.
  apply (selection_within_total_quota (H := RotatingRandom)
           (rng_seed 42) (load_spotify_records small_dataset)).
Defined.

Lemma selection_keeps_small_decades_witness :
  track_ids (select_spotify_subset (rng_seed 42)
               (load_spotify_records small_dataset)).1
    = ["s1"; "t99"; "s2"; "s3"].
Proof.
  rewrite (selection_keeps_small_decades (H := RotatingRandom)).
  - by vm_compute.
  - apply (load_fold_state small_dataset).
  - intros d t Hdt. pose proof (DECADE_TARGETS_positive d t Hdt).
    etrans; [|apply (Z.lt_le_incl 99 t)].
    + transitivity (len (load_spotify_records small_dataset)).
      * apply inj_le, length_filter.
      * by vm_compute.
    + revert Hdt. unfold DECADE_TARGETS.
      rewrite !elem_of_cons, elem_of_nil.
      intros [?|[?|[?|[?|[?|[?|[?|[]]]]]]]]; simplify_eq; lia.
Defined.

(** * Further properties of the enrichment *)



Lemma StronglySorted_strict {A} (R : A → A → Prop) (l : list A) :
  StronglySorted R l → NoDup l → StronglySorted (λ a b, R a b ∧ a ≠ b) l.
Proof.
  induction 1 as [|x l Hl IH Hx]; intros Hnd; constructor.
  - apply IH. by apply NoDup_cons in Hnd as [_ ?].
  - apply NoDup_cons in Hnd as [Hin _]. apply Forall_forall.
    intros y Hy. split; [by rewrite Forall_forall in Hx; apply Hx|].
    by intros ->.
Qed.

Lemma sorted_set_spec (xs : list string) :
  strictly_ascending (sorted_set xs) ∧ ∀ x, x ∈ sorted_set xs ↔ x ∈ xs.
Proof.
  unfold strictly_ascending, sorted_set. split.
  - apply StronglySorted_strict.
    + apply stable_sort_sorted.
      * intros x y Hxy.
        destruct (Stdlib.Strings.String.leb_total x y) as [?|?]; congruence.
      * intros x y z Hxy Hyz. apply Is_true_true.
        apply (transitivity (R := String.le) (y := y)); by apply Is_true_true.
    + rewrite stable_sort_perm. apply NoDup_remove_dups.
  - intros x. by rewrite stable_sort_perm, elem_of_remove_dups.
Qed.

Section enrichment_properties.
Context `{FloatOps}.

Lemma spotify_row_to_entry_fields (row : Track) (e : Entry) :
  spotify_row_to_entry row = Some e →
  floats_parse row ∧
  (track_popularity row = EmptyString ∨
   is_Some (PyStr.int (track_popularity row))) ∧
  entry_id e = "spotify:" +:+ track_id row ∧
  releaseYear e = release_year row ∧
  primaryGenre e = playlist_genre row ∧
  language e = detect_language row ∧
  originMarkets e = origin_markets (detect_language row) ∧
  tags e = sorted_set [playlist_genre row; playlist_subgenre row;
                       detect_language row].
Proof.
  unfold spotify_row_to_entry, floats_parse. intros He.
  simplify_option_eq; split_and!; eauto.
Qed.


(** The tags of an entry are the genre, the subgenre and the language of
    the row, each once, in strictly ascending order. *)
Theorem tags_sorted_without_duplicates (row : Track) (e : Entry) :
  spotify_row_to_entry row = Some e →
  strictly_ascending (tags e) ∧
  (∀ x : string,
     x ∈ tags e
     ↔ x = playlist_genre row ∨ x = playlist_subgenre row ∨ x = language e).
Proof.
  intros (_ & _ & _ & _ & _ & Hl & _ & Ht)%spotify_row_to_entry_fields.
  rewrite Ht, Hl. destruct (sorted_set_spec
    [playlist_genre row; playlist_subgenre row; detect_language row])
    as [Hs Hx].
  split; [done|]. intros x. rewrite Hx, !elem_of_cons, elem_of_nil. tauto.
Qed.



End enrichment_properties.


Lemma metallica_track_enriched : is_Some (spotify_row_to_entry metallica_track).
Proof.
  apply spotify_row_to_entry_total; [|left; vm_compute; by eexists].
  vm_compute. repeat split; by eexists.
Qed.

Lemma tags_sorted_without_duplicates_witness :
  ∃ e : Entry,
    spotify_row_to_entry metallica_track = Some e ∧
    strictly_ascending (tags e).
Proof.
  destruct metallica_track_enriched as [e He]. exists e.
  split; [done|].
  by apply (tags_sorted_without_duplicates (H := IntegerFloats)
              metallica_track e He).
Defined.


(** * Properties of the slug of a curated entry *)

#[local] Arguments Stdlib.Strings.Ascii.eqb : simpl never.

Lemma slug_char_not_hyphen (c : ascii) :
  is_slug_char c = true → Stdlib.Strings.Ascii.eqb "-" c = false.
Proof. destruct c as [[] [] [] [] [] [] [] []]; by vm_compute. Qed.

Lemma eqb_hyphen_sym (c : ascii) :
  Stdlib.Strings.Ascii.eqb c "-" = Stdlib.Strings.Ascii.eqb "-" c.
Proof. apply Stdlib.Strings.Ascii.eqb_sym. Qed.

Lemma sub_runs_chars (in_run : bool) (s : string) :
  PyStr.all_chars slug_or_hyphen (sub_runs in_run s) = true.
Proof.
  revert in_run. induction s as [|c s IH]; intros in_run; [done|]. simpl.
  destruct (is_slug_char c) eqn:Hc.
  - simpl. unfold slug_or_hyphen at 1. by rewrite Hc, IH.
  - destruct in_run; [apply IH|]. simpl. by rewrite IH.
Qed.

Lemma sub_runs_hyphens (in_run : bool) (s : string) :
  PyStr.contains "--" (sub_runs in_run s) = false ∧
  PyStr.starts_with "-" (sub_runs true s) = false.
Proof.
  revert in_run. induction s as [|c s IH]; intros in_run; [done|].
  destruct (IH false) as [Hf _], (IH true) as [Ht Hs]. simpl.
  destruct (is_slug_char c) eqn:Hc.
  - simpl. rewrite (slug_char_not_hyphen c Hc), Hf. done.
  - split; [|done]. destruct in_run; [done|]. simpl.
    rewrite Ht. simpl in Hs. destruct (sub_runs true s) as [|c' s']; [done|].
    by rewrite Hs.
Qed.

Lemma lstrip_by_suffix (p : ascii → bool) (s : string) :
  ∃ a : string, s = a +:+ PyStr.lstrip_by p s.
Proof.
  induction s as [|c s [a IH]]; [by exists EmptyString|]. simpl.
  destruct (p c); [|by exists EmptyString].
  exists (String c a). by rewrite append_cons, <- IH.
Qed.

Lemma lstrip_by_head (p : ascii → bool) (s : string) (c : ascii) (t : string) :
  PyStr.lstrip_by p s = String c t → p c = false.
Proof.
  induction s as [|x s IH]; [done|]. simpl.
  destruct (p x) eqn:Hx; [done|]. by intros [= <- _].
Qed.

Lemma rstrip_by_prefix (p : ascii → bool) (s : string) :
  ∃ b : string, s = PyStr.rstrip_by p s +:+ b.
Proof.
  induction s as [|c s [b IH]]; [by exists EmptyString|]. simpl.
  destruct (PyStr.rstrip_by p s) as [|y t] eqn:Hr.
  - destruct (p c); [by exists (String c s)|].
    exists s. by rewrite append_cons.
  - exists b. by rewrite append_cons, <- IH.
Qed.

Lemma rstrip_by_last (p : ascii → bool) (s a : string) (c : ascii) :
  PyStr.rstrip_by p s = a +:+ String c EmptyString → p c = false.
Proof.
  revert a. induction s as [|x s IH]; intros a; simpl.
  { by destruct a. }
  destruct (PyStr.rstrip_by p s) as [|y t] eqn:Hr.
  - destruct (p x) eqn:Hx; [by destruct a|].
    destruct a as [|a0 a]; [by intros [= <-]|].
    rewrite append_cons. intros [= _ Ha]. by destruct a.
  - destruct a as [|a0 a]; [done|].
    rewrite append_cons. intros [= _ Ha]. by apply (IH a).
Qed.

Lemma all_chars_app (q : ascii → bool) (a b : string) :
  PyStr.all_chars q (a +:+ b) = PyStr.all_chars q a && PyStr.all_chars q b.
Proof.
  induction a as [|c a IH]; [done|]. rewrite append_cons. simpl.
  by rewrite IH, andb_assoc.
Qed.

Lemma starts_with_app (n a b : string) :
  PyStr.starts_with n a = true → PyStr.starts_with n (a +:+ b) = true.
Proof.
  revert a. induction n as [|x n IH]; intros a; [done|].
  destruct a as [|y a]; [done|]. rewrite append_cons. simpl.
  intros [-> Hn]%andb_prop. by rewrite (IH a Hn).
Qed.

Lemma contains_app_l (n a b : string) :
  PyStr.contains n (a +:+ b) = false → PyStr.contains n a = false.
Proof.
  induction a as [|c a IH].
  - rewrite append_nil. destruct n as [|x n]; [by destruct b|done].
  - rewrite append_cons. simpl. intros [Hs Hc]%orb_false_elim.
    rewrite (IH Hc), orb_false_r. apply not_true_iff_false.
    intros Hw. apply (starts_with_app n (String c a) b) in Hw.
    rewrite append_cons in Hw. simpl in Hw. congruence.
Qed.

Lemma contains_app_r (n a b : string) :
  PyStr.contains n (a +:+ b) = false → PyStr.contains n b = false.
Proof.
  induction a as [|c a IH]; [done|]. rewrite append_cons. simpl.
  intros [_ Hc]%orb_false_elim. by apply IH.
Qed.

(** The slug of a curated entry is made of lower-case ASCII letters,
    digits and single hyphens, and neither begins nor ends with a
    hyphen. *)
Theorem slug_is_well_formed (s : string) :
  PyStr.all_chars slug_or_hyphen (slugify s) = true ∧
  PyStr.contains "--" (slugify s) = false ∧
  PyStr.starts_with "-" (slugify s) = false ∧
  (∀ a : string, slugify s ≠ a +:+ "-").
Proof.
  unfold slugify, PyStr.strip_by.
  set (t := sub_runs false (PyStr.lower s)).
  pose proof (sub_runs_chars false (PyStr.lower s)) as Hchars.
  pose proof (proj1 (sub_runs_hyphens false (PyStr.lower s))) as Hdouble.
  fold t in Hchars, Hdouble.
  destruct (lstrip_by_suffix (Stdlib.Strings.Ascii.eqb "-") t) as [a Ha].
  pose proof (lstrip_by_head (Stdlib.Strings.Ascii.eqb "-") t) as Hhead.
  set (l := PyStr.lstrip_by (Stdlib.Strings.Ascii.eqb "-") t) in *.
  destruct (rstrip_by_prefix (Stdlib.Strings.Ascii.eqb "-") l) as [b Hb].
  pose proof (rstrip_by_last (Stdlib.Strings.Ascii.eqb "-") l) as Hlast.
  set (r := PyStr.rstrip_by (Stdlib.Strings.Ascii.eqb "-") l) in *.
  rewrite Ha, Hb in Hchars, Hdouble.
  rewrite !all_chars_app in Hchars.
  apply andb_prop in Hchars as [_ [Hchars _]%andb_prop].
  apply contains_app_r, contains_app_l in Hdouble.
  split_and!; [done|done| |].
  - destruct r as [|c u]; [done|]. destruct l as [|c' u']; [done|].
    rewrite append_cons in Hb. injection Hb as <- _.
    simpl. by rewrite (Hhead c' u' eq_refl).
  - intros a' Heq. by apply Hlast in Heq.
Qed.

(** * Further properties of the merge and of the run *)

Section counter_facts.
Context {K : Type} `{EqDecision K}.

Lemma dict_get_upd {V} (dflt : V) (f : V → V) (k k' : K) (d : list (K * V)) :
  dict_get k' (dict_upd dflt f k d)
    = if decide (k = k') then Some (f (default dflt (dict_get k d)))
      else dict_get k' d.
Proof.
  induction d as [|[k0 v0] d IH]; csimpl.
  - repeat case_decide; done.
  - repeat (case_decide; csimpl; subst); try done.
Qed.

Lemma zsum_dict_incr (k : K) (d : list (K * Z)) :
  zsum (dict_upd 0 (Z.add 1) k d).*2 = zsum d.*2 + 1.
Proof.
  induction d as [|[k0 v0] d IH]; csimpl; [done|].
  case_decide; csimpl; lia.
Qed.

Lemma Counter_snoc (keys : list K) (k : K) :
  Counter (keys ++ [k]) = dict_upd 0 (Z.add 1) k (Counter keys).
Proof. unfold Counter. by rewrite foldl_app. Qed.

(** [Counter] counts: one pair for each key that occurs, with the number
    of its occurrences *)
Lemma Counter_spec (keys : list K) :
  NoDup (Counter keys).*1 ∧
  zsum (Counter keys).*2 = len keys ∧
  ∀ k : K,
    dict_get k (Counter keys)
      = if decide (k ∈ keys) then Some (len (filter (λ x, x = k) keys))
        else None.
Proof.
  induction keys as [|k0 keys (Hnd & Hsum & Hget)] using rev_ind.
  { split_and!; [constructor|done|]. intros k.
    by rewrite decide_False by apply not_elem_of_nil. }
  rewrite Counter_snoc. split_and!.
  - by apply dict_upd_NoDup.
  - rewrite zsum_dict_incr, Hsum, length_app. simpl. lia.
  - intros k. rewrite dict_get_upd, Hget.
    destruct (decide (k0 = k)) as [->|Hne].
    + rewrite (decide_True (P := k ∈ keys ++ [k]))
        by (apply elem_of_app; right; apply list_elem_of_here).
      f_equal. rewrite filter_app, length_app, Nat2Z.inj_add.
      rewrite (filter_all (λ x, x = k) [k])
        by by intros x ->%list_elem_of_singleton.
      simpl length. destruct (decide (k ∈ keys)) as [Hin|Hnot]; simpl; [lia|].
      rewrite filter_none; [simpl; lia|]. by intros x Hx ->.
    + rewrite Hget, filter_app, length_app.
      rewrite (filter_none (λ x, x = k) [k0])
        by by intros x ->%list_elem_of_singleton.
      simpl length. rewrite Nat.add_0_r.
      destruct (decide (k ∈ keys)) as [Hin|Hnot].
      * rewrite decide_True; [done|]. apply elem_of_app. by left.
      * rewrite decide_False; [done|].
        intros [?|?%list_elem_of_singleton]%elem_of_app; [done|by subst].
Qed.

End counter_facts.

Section run_properties.
Context `{RandomSource} `{FloatOps}.


Lemma sort_key_leb_spec (x y : Entry) :
  sort_key_leb x y = true
  ↔ releaseYear x < releaseYear y ∨
    (releaseYear x = releaseYear y ∧
     Stdlib.Strings.String.leb (title x) (title y) = true).
Proof.
  unfold sort_key_leb. rewrite orb_true_iff, andb_true_iff.
  by rewrite Z.ltb_lt, Z.eqb_eq.
Qed.

Lemma sort_key_leb_sorted (l : list Entry) :
  StronglySorted (λ x y, sort_key_leb x y = true) (stable_sort sort_key_leb l).
Proof.
  apply stable_sort_sorted.
  - intros x y Hxy. apply sort_key_leb_spec.
    apply not_true_iff_false in Hxy. rewrite sort_key_leb_spec in Hxy.
    destruct (Z.lt_trichotomy (releaseYear x) (releaseYear y))
      as [?|[?|?]]; [tauto| |by left].
    destruct (Stdlib.Strings.String.leb_total (title x) (title y)) as [?|?];
      [tauto|by right].
  - intros x y z. rewrite !sort_key_leb_spec.
    intros [?|[? Hxy]] [?|[? Hyz]]; try lia. right. split; [lia|].
    apply Is_true_true.
    apply (transitivity (R := String.le) (y := title y)); by apply Is_true_true.
Qed.

(** The catalog of a run that finishes is sorted by release year, then by
    title in the order of Python strings; its record count is the number
    of its songs, and each of the three breakdowns has one count for each
    value that occurs, the number of songs with that value, so that each
    breakdown sums to the record count. *)
Theorem catalog_is_sorted_and_counted (root now : string) (w w' : World) :
  main root now w = (w', Finished) →
  ∃ p : Payload,
    catalog w' = Some p ∧
    StronglySorted
      (λ x y : Entry,
         releaseYear x < releaseYear y ∨
         (releaseYear x = releaseYear y ∧
          Stdlib.Strings.String.leb (title x) (title y) = true))
      (songs p) ∧
    recordCount (metadata p) = len (songs p) ∧
    zsum (byDecade (metadata p)).*2 = len (songs p) ∧
    zsum (byPrimaryGenre (metadata p)).*2 = len (songs p) ∧
    zsum (byLanguage (metadata p)).*2 = len (songs p) ∧
    (∀ genre : string,
       dict_get genre (byPrimaryGenre (metadata p))
         = if decide (genre ∈ primaryGenre <$> songs p)
           then Some (len (filter (λ e, primaryGenre e = genre) (songs p)))
           else None) ∧
    (∀ d : Z,
       dict_get d (byDecade (metadata p))
         = if decide (d ∈ (λ e, releaseYear e / 10 * 10) <$> songs p)
           then Some (len (filter (λ e, releaseYear e / 10 * 10 = d)
                             (songs p)))
           else None).
Proof.
  intros (rows & mrows & sp & curated & combined & skipped
          & _ & _ & _ & _ & _ & Hcat)%main_finished_inv.
  eexists. split; [exact Hcat|]. cbn [songs metadata build_metadata
    recordCount byDecade byPrimaryGenre byLanguage].
  set (l := stable_sort sort_key_leb combined).
  assert (∀ {B} `{EqDecision B} (f : Entry → B) (b : B),
            length (filter (λ x, x = b) (f <$> l))
            = length (filter (λ e, f e = b) l)) as Hcount.
  { intros B ? f b. induction l as [|x l' IH]; [done|]. csimpl.
    rewrite !filter_cons. case_decide; simpl; by rewrite IH. }
  split_and!.
  - eapply StronglySorted_weaken; [|apply sort_key_leb_sorted].
    intros x y. apply sort_key_leb_spec.
  - done.
  - by rewrite (proj1 (proj2 (Counter_spec _))), length_fmap.
  - by rewrite (proj1 (proj2 (Counter_spec _))), length_fmap.
  - by rewrite (proj1 (proj2 (Counter_spec _))), length_fmap.
  - intros genre. rewrite (proj2 (proj2 (Counter_spec _))).
    by rewrite Hcount.
  - intros d. rewrite (proj2 (proj2 (Counter_spec _))).
    by rewrite Hcount.
Qed.

End run_properties.

Section run_totality.
Context `{RandomSource} `{FloatOps}.



Lemma select_length_le (g : rng_state) (records : list Track) :
  len (select_spotify_subset g records).1 ≤ 2900.
Proof.
  rewrite <- zsum_DECADE_TARGETS.
  etrans; [apply (select_fold_length records DECADE_TARGETS ([], ∅, g))|done].
  apply Forall_forall. intros [d t] Hdt. cbn [snd].
  pose proof (DECADE_TARGETS_positive d t Hdt). lia.
Qed.


(** The catalog of a run that finishes has at most max(3000, 2900 + the
    number of curated rows) songs: at most 3000 when the curated list has
    at most 100 rows. *)
Theorem catalog_size_is_bounded (root now : string) (w w' : World) :
  main root now w = (w', Finished) →
  ∃ (p : Payload) (mrows : list ManualRow),
    catalog w' = Some p ∧ manual_songs w = Some mrows ∧
    len (songs p) ≤ Z.max GLOBAL_TARGET (2900 + len mrows) ∧
    (len mrows ≤ 100 → len (songs p) ≤ GLOBAL_TARGET).
Proof.
  intros (rows & mrows & sp & curated & combined & skipped
          & _ & Hman & Hsp & Hcur & Hmerge & Hcat)%main_finished_inv.
  apply merge_catalog_inv in Hmerge
    as (kept & extra & -> & Hsub & _ & _ & _ & _ & _ & Hlen).
  assert (len (stable_sort sort_key_leb (sp ++ kept ++ extra))
          ≤ Z.max GLOBAL_TARGET (2900 + len mrows)) as Hbound.
  { rewrite (Permutation_length (stable_sort_perm sort_key_leb _)).
    rewrite !length_app, !Nat2Z.inj_add.
    rewrite length_app, Nat2Z.inj_add in Hlen.
    apply mapM_Some, Forall2_length in Hsp.
    unfold load_manual_french_songs in Hcur.
    apply mapM_Some, Forall2_length in Hcur.
    apply sublist_length in Hsub.
    pose proof (select_length_le (rng_seed 42) (load_spotify_records rows)).
    unfold GLOBAL_TARGET in *. lia. }
  eexists _, mrows. split_and!; [exact Hcat|done|exact Hbound|].
  cbn [songs] in *. unfold GLOBAL_TARGET in *. lia.
Qed.

End run_totality.


Lemma catalog_is_sorted_and_counted_witness :
  ∃ p : Payload,
    catalog (main "/repo" noon both_files).1 = Some p ∧
    recordCount (metadata p) = len (songs p).
Proof.
  destruct (catalog_is_sorted_and_counted (H := RotatingRandom)
              (H0 := IntegerFloats) "/repo" noon both_files
              (main "/repo" noon both_files).1 both_files_finished)
    as (p & Hp & _ & Hcount & _).
  by exists p.
Defined.



Lemma catalog_size_is_bounded_witness :
  ∃ p : Payload,
    catalog (main "/repo" noon both_files).1 = Some p ∧
    len (songs p) ≤ GLOBAL_TARGET.
Proof.
  destruct (catalog_size_is_bounded (H := RotatingRandom)
              (H0 := IntegerFloats) "/repo" noon both_files
              (main "/repo" noon both_files).1 both_files_finished)
    as (p & mrows & Hp & Hman & _ & Hsmall).
  exists p. split; [exact Hp|]. apply Hsmall.
  injection Hman as <-. by vm_compute.
Defined.
